(** * s2n-quic BPF event records

    A model of [quic/s2n-quic-core/src/event/generated_s2n_quic_bpf_events.h].

    The header declares four C structures and nothing else: no function, no
    macro, no constant.  The declarations are embedded as data (a tag and
    the ordered list of members, each with its qualifier, type and name),
    so that field count, order and type are statements about the
    declarations themselves.  What a C program can do with an object of
    such a type (give it storage, initialise the members, read a member,
    assign to a member) is given by the C object model: the layout rule of
    the platform ABI and loads and stores of fixed-width integers in the
    object's bytes.  That model is written out below, bytes being 8 bits
    wide as on every target of the Linux tracing subsystem. *)

From Stdlib Require Import String ZArith List Lia Bool.
Import ListNotations.
Open Scope string_scope.
Open Scope list_scope.
Open Scope Z_scope.

(** ** C integer types *)

Module CTypes.

Inductive signedness := Signed | Unsigned.
Inductive intsize := I8 | I16 | I32 | I64.

(** The fixed-width integer types of <stdint.h>. *)
Inductive ctype := Tint (sz : intsize) (sg : signedness).

Definition uint8_t := Tint I8 Unsigned.
Definition uint16_t := Tint I16 Unsigned.
Definition uint32_t := Tint I32 Unsigned.
Definition uint64_t := Tint I64 Unsigned.
Definition int64_t := Tint I64 Signed.

Definition CHAR_BIT : Z := 8.

Definition bitwidth (t : ctype) : Z :=
  match t with
  | Tint I8 _ => 8
  | Tint I16 _ => 16
  | Tint I32 _ => 32
  | Tint I64 _ => 64
  end.

Definition is_unsigned (t : ctype) : bool :=
  match t with
  | Tint _ Unsigned => true
  | Tint _ Signed => false
  end.

(** [sizeof] in bytes. *)
Definition sizeof (t : ctype) : Z := bitwidth t / CHAR_BIT.

Definition modulus (t : ctype) : Z := 2 ^ bitwidth t.

Definition UINT64_MAX : Z := 18446744073709551615.

Definition min_value (t : ctype) : Z :=
  if is_unsigned t then 0 else - (modulus t / 2).

Definition max_value (t : ctype) : Z :=
  if is_unsigned t then modulus t - 1 else modulus t / 2 - 1.

(** The values an object of type [t] can hold. *)
Definition representable (t : ctype) (v : Z) : Prop :=
  min_value t <= v <= max_value t.

(** Conversion of an integer to type [t]: reduction modulo [2^width],
    read as two's complement for the signed types. *)
Definition convert (t : ctype) (v : Z) : Z :=
  let u := v mod modulus t in
  if is_unsigned t then u
  else if u <? modulus t / 2 then u else u - modulus t.

End CTypes.
Export CTypes.

(** ** Platform ABI *)

Module Abi.

Inductive byte_order := LittleEndian | BigEndian.

(** What the layout of a structure of integers depends on: the byte order
    and the alignment of each integer size. *)
Record abi := {
  order : byte_order;
  align_of_size : intsize -> Z
}.

Definition alignof (a : abi) (t : ctype) : Z :=
  match t with Tint sz _ => align_of_size a sz end.

(** Alignments are positive and divide the size of the type (in C the
    elements of an array are adjacent, so [sizeof] is a multiple of the
    alignment). *)
Definition align_ok (a : abi) (sz : intsize) : bool :=
  (0 <? align_of_size a sz) &&
  (sizeof (Tint sz Unsigned) mod align_of_size a sz =? 0).

Definition abi_ok (a : abi) : bool :=
  forallb (align_ok a) [I8; I16; I32; I64].

Definition natural_align (sz : intsize) : Z := sizeof (Tint sz Unsigned).

(** The eBPF target and x86-64: every integer is aligned on its size. *)
Definition bpf_le : abi :=
  {| order := LittleEndian; align_of_size := natural_align |}.

Definition bpf_be : abi :=
  {| order := BigEndian; align_of_size := natural_align |}.

(** The i386 System V ABI: 64-bit integers are aligned on 4 bytes. *)
Definition i386 : abi :=
  {| order := LittleEndian;
     align_of_size := fun sz => Z.min 4 (natural_align sz) |}.

End Abi.
Export Abi.

(** ** Structure declarations and their layout *)

Module Layout.

(** A member declaration [const? type name;]. *)
Record member := {
  m_const : bool;
  m_type : ctype;
  m_name : string
}.

(** A declaration [struct tag { members };]. *)
Record struct_decl := {
  s_tag : string;
  s_members : list member
}.

Definition member_names (d : struct_decl) : list string :=
  map m_name (s_members d).

Definition member_types (d : struct_decl) : list ctype :=
  map m_type (s_members d).

Definition field_count (d : struct_decl) : Z :=
  Z.of_nat (length (s_members d)).

(** The least multiple of [a] that is at least [off]. *)
Definition align_up (off a : Z) : Z := (off + a - 1) / a * a.

(** Members are placed in declaration order, each at the first offset
    after the previous member that satisfies its alignment. *)
Fixpoint place (a : abi) (off : Z) (ms : list member) : list (member * Z) :=
  match ms with
  | [] => []
  | m :: ms' =>
      let o := align_up off (alignof a (m_type m)) in
      (m, o) :: place a (o + sizeof (m_type m)) ms'
  end.

(** The offset just after the last member. *)
Fixpoint end_offset (a : abi) (off : Z) (ms : list member) : Z :=
  match ms with
  | [] => off
  | m :: ms' =>
      end_offset a (align_up off (alignof a (m_type m)) + sizeof (m_type m)) ms'
  end.

(** The alignment of a structure is that of its most aligned member. *)
Definition struct_align (a : abi) (ms : list member) : Z :=
  fold_right Z.max 1 (map (fun m => alignof a (m_type m)) ms).

Definition layout (a : abi) (d : struct_decl) : list (member * Z) :=
  place a 0 (s_members d).

(** [sizeof (struct tag)]: the end of the last member, rounded up to the
    alignment of the structure. *)
Definition sizeof_struct (a : abi) (d : struct_decl) : Z :=
  align_up (end_offset a 0 (s_members d)) (struct_align a (s_members d)).

(** Lookup of a member by name, as [s.f] does. *)
Fixpoint find_member (f : string) (l : list (member * Z)) : option (member * Z) :=
  match l with
  | [] => None
  | (m, o) :: l' => if String.eqb f (m_name m) then Some (m, o) else find_member f l'
  end.

(** [offsetof (struct tag, f)]. *)
Definition offsetof (a : abi) (d : struct_decl) (f : string) : option Z :=
  option_map snd (find_member f (layout a d)).

(** Bytes of the structure that belong to no member. *)
Definition padding (a : abi) (d : struct_decl) : Z :=
  sizeof_struct a d - fold_right Z.add 0 (map sizeof (member_types d)).

End Layout.
Export Layout.

(** ** The declarations of the header *)

Module Events.

(** A member declared [type name;], without qualifier, as every member of
    the header is. *)
Definition field (t : ctype) (name : string) : member :=
  {| m_const := false; m_type := t; m_name := name |}.

(** [struct RecoveryMetrics { uint64_t path; uint64_t min_rtt; ...;
    uint64_t bytes_in_flight; };] *)
Definition RecoveryMetrics : struct_decl :=
  {| s_tag := "RecoveryMetrics";
     s_members :=
       [ field uint64_t "path";
         field uint64_t "min_rtt";
         field uint64_t "smoothed_rtt";
         field uint64_t "latest_rtt";
         field uint64_t "rtt_variance";
         field uint64_t "max_ack_delay";
         field uint64_t "pto_count";
         field uint64_t "congestion_window";
         field uint64_t "bytes_in_flight" ] |}.

(** [struct RxStreamProgress { uint64_t bytes; };] *)
Definition RxStreamProgress : struct_decl :=
  {| s_tag := "RxStreamProgress";
     s_members := [ field uint64_t "bytes" ] |}.

(** [struct TxStreamProgress { uint64_t bytes; };] *)
Definition TxStreamProgress : struct_decl :=
  {| s_tag := "TxStreamProgress";
     s_members := [ field uint64_t "bytes" ] |}.

(** [struct EndpointDatagramReceived { uint64_t len; };] *)
Definition EndpointDatagramReceived : struct_decl :=
  {| s_tag := "EndpointDatagramReceived";
     s_members := [ field uint64_t "len" ] |}.

(** The record kinds of the header, in the order of declaration. *)
Definition event_structs : list struct_decl :=
  [ RecoveryMetrics; RxStreamProgress; TxStreamProgress; EndpointDatagramReceived ].

End Events.
Export Events.

(** ** Object representation: bytes, loads and stores *)

Module Mem.

(** The bytes of one object. *)
Definition image := list Byte.byte.

Definition Z_of_byte (b : Byte.byte) : Z := Z.of_N (Byte.to_N b).

Definition byte_of_Z (z : Z) : Byte.byte :=
  match Byte.of_N (Z.to_N (z mod 256)) with
  | Some b => b
  | None => Byte.x00
  end.

(** The [n] low-order bytes of [v], least significant first. *)
Fixpoint encode_le (n : nat) (v : Z) : list Byte.byte :=
  match n with
  | O => []
  | S n' => byte_of_Z v :: encode_le n' (v / 256)
  end.

Fixpoint decode_le (bs : list Byte.byte) : Z :=
  match bs with
  | [] => 0
  | b :: bs' => Z_of_byte b + 256 * decode_le bs'
  end.

Definition encode_int (o : byte_order) (n : nat) (v : Z) : list Byte.byte :=
  match o with
  | LittleEndian => encode_le n v
  | BigEndian => rev (encode_le n v)
  end.

Definition decode_int (o : byte_order) (bs : list Byte.byte) : Z :=
  match o with
  | LittleEndian => decode_le bs
  | BigEndian => decode_le (rev bs)
  end.

(** An access of [n] bytes at [off] lies within the object. *)
Definition in_bounds (img : image) (off : Z) (n : nat) : bool :=
  (0 <=? off) && (off + Z.of_nat n <=? Z.of_nat (length img)).

(** Accesses outside the object have no defined result. *)
Definition load (img : image) (off : Z) (n : nat) : option (list Byte.byte) :=
  if in_bounds img off n
  then Some (firstn n (skipn (Z.to_nat off) img))
  else None.

Definition store (img : image) (off : Z) (bs : list Byte.byte) : option image :=
  if in_bounds img off (length bs)
  then Some (firstn (Z.to_nat off) img ++ bs
             ++ skipn (Z.to_nat off + length bs) img)
  else None.

Definition size_nat (t : ctype) : nat := Z.to_nat (sizeof t).

(** Load and store of an integer of type [t]. *)
Definition load_int (a : abi) (t : ctype) (img : image) (off : Z) : option Z :=
  option_map (fun bs => convert t (decode_int (order a) bs))
             (load img off (size_nat t)).

Definition store_int (a : abi) (t : ctype) (img : image) (off : Z) (v : Z)
  : option image :=
  store img off (encode_int (order a) (size_nat t) (convert t v)).

End Mem.
Export Mem.

(** ** Objects of structure type: construction, member read, member assignment *)

Module Object.

(** [s.f] as an rvalue. *)
Definition read_member (a : abi) (d : struct_decl) (img : image) (f : string)
  : option Z :=
  match find_member f (layout a d) with
  | Some (m, off) => load_int a (m_type m) img off
  | None => None
  end.

(** [s.f = v]: the left operand must be a modifiable lvalue, which a
    [const]-qualified member is not. *)
Definition assign (a : abi) (d : struct_decl) (img : image) (f : string) (v : Z)
  : option image :=
  match find_member f (layout a d) with
  | Some (m, off) =>
      if m_const m then None else store_int a (m_type m) img off v
  | None => None
  end.

(** Initialisation of the members in declaration order, one initialiser
    for each member. *)
Fixpoint init_members (a : abi) (img : image) (l : list (member * Z))
                      (vs : list Z) : option image :=
  match l, vs with
  | [], [] => Some img
  | (m, off) :: l', v :: vs' =>
      match store_int a (m_type m) img off v with
      | Some img' => init_members a img' l' vs'
      | None => None
      end
  | _, _ => None
  end.

(** [struct tag s = { v1, ..., vn };] in storage [raw] of
    [sizeof (struct tag)] bytes, whose previous contents are arbitrary. *)
Definition construct (a : abi) (d : struct_decl) (raw : image) (vs : list Z)
  : option image :=
  if Z.of_nat (length raw) =? sizeof_struct a d
  then init_members a raw (layout a d) vs
  else None.

(** Every member read back, in declaration order. *)
Definition read_all (a : abi) (d : struct_decl) (img : image) : list (option Z) :=
  map (read_member a d img) (member_names d).

(** The member values laid end to end, each in its type's encoding. *)
Fixpoint packed (a : abi) (ms : list member) (vs : list Z) : image :=
  match ms, vs with
  | m :: ms', v :: vs' =>
      encode_int (order a) (size_nat (m_type m)) (convert (m_type m) v)
      ++ packed a ms' vs'
  | _, _ => []
  end.

(** What a program may do with a constructed object. *)
Inductive access :=
| Read (f : string)
| Assign (f : string) (v : Z).

Definition step (a : abi) (d : struct_decl) (img : image) (op : access)
  : option image :=
  match op with
  | Read f =>
      match read_member a d img f with
      | Some _ => Some img
      | None => None
      end
  | Assign f v => assign a d img f v
  end.

Fixpoint run (a : abi) (d : struct_decl) (img : image) (ops : list access)
  : option image :=
  match ops with
  | [] => Some img
  | op :: ops' =>
      match step a d img op with
      | Some img' => run a d img' ops'
      | None => None
      end
  end.

Definition assigns_to (f : string) (op : access) : bool :=
  match op with
  | Read _ => false
  | Assign g _ => String.eqb f g
  end.

Definition zeroed (n : Z) : image := repeat Byte.x00 (Z.to_nat n).
Definition filled (n : Z) : image := repeat Byte.xff (Z.to_nat n).

(** Replacement of the [i]-th value of a tuple. *)
Definition update (i : nat) (v : Z) (vs : list Z) : list Z :=
  firstn i vs ++ v :: skipn (S i) vs.

(** A structure all of whose members are plain (unqualified) [uint64_t]
    members with distinct names. *)
Definition uint64_record (d : struct_decl) : Prop :=
  Forall (fun m => m_type m = uint64_t /\ m_const m = false) (s_members d)
  /\ NoDup (member_names d).

End Object.
Export Object.

(** ** Properties of the byte encoding *)

Section Encoding.

Lemma Z_of_byte_range (b : Byte.byte) : 0 <= Z_of_byte b < 256.
Proof.
  unfold Z_of_byte.
  pose proof (Byte.to_N_bounded b). lia.
Qed.

Lemma Z_of_byte_of_Z (z : Z) : Z_of_byte (byte_of_Z z) = z mod 256.
Proof.
  unfold Z_of_byte, byte_of_Z.
  assert (Hr : 0 <= z mod 256 < 256) by (apply Z.mod_pos_bound; lia).
  destruct (Byte.of_N (Z.to_N (z mod 256))) as [b|] eqn:E.
  - apply Byte.to_of_N in E. rewrite E. lia.
  - apply Byte.of_N_None_iff in E. lia.
Qed.

Lemma length_encode_le (n : nat) (v : Z) : length (encode_le n v) = n.
Proof.
  revert v. induction n as [|n IH]; intros v; simpl; [reflexivity|].
  now rewrite IH.
Qed.

Lemma length_encode_int (o : byte_order) (n : nat) (v : Z) :
  length (encode_int o n v) = n.
Proof.
  destruct o; simpl; [|rewrite length_rev]; apply length_encode_le.
Qed.

Lemma decode_le_range (bs : list Byte.byte) :
  0 <= decode_le bs < 256 ^ Z.of_nat (length bs).
Proof.
  induction bs as [|b bs IH].
  - simpl. lia.
  - cbn [decode_le length]. rewrite Nat2Z.inj_succ, Z.pow_succ_r by lia.
    pose proof (Z_of_byte_range b). lia.
Qed.

Lemma decode_encode_le (n : nat) (v : Z) :
  decode_le (encode_le n v) = v mod 256 ^ Z.of_nat n.
Proof.
  revert v. induction n as [|n IH]; intros v.
  - simpl. now rewrite Z.mod_1_r.
  - cbn [encode_le decode_le]. rewrite Z_of_byte_of_Z, IH.
    rewrite Nat2Z.inj_succ, Z.pow_succ_r by lia.
    assert (Hp : 0 < 256 ^ Z.of_nat n) by (apply Z.pow_pos_nonneg; lia).
    rewrite (Z.rem_mul_r v 256 (256 ^ Z.of_nat n)) by lia.
    reflexivity.
Qed.

Lemma decode_encode_int (o : byte_order) (n : nat) (v : Z) :
  decode_int o (encode_int o n v) = v mod 256 ^ Z.of_nat n.
Proof.
  destruct o; simpl; [|rewrite rev_involutive]; apply decode_encode_le.
Qed.

Lemma decode_int_range (o : byte_order) (bs : list Byte.byte) :
  0 <= decode_int o bs < 256 ^ Z.of_nat (length bs).
Proof.
  destruct o; simpl.
  - apply decode_le_range.
  - rewrite <- (length_rev bs). apply decode_le_range.
Qed.

End Encoding.

(** ** Properties of loads and stores *)

Section Memory.

Lemma store_middle (p old new r : image) :
  length old = length new ->
  store (p ++ old ++ r) (Z.of_nat (length p)) new = Some (p ++ new ++ r).
Proof.
  intros Hlen. unfold store, in_bounds.
  rewrite !length_app, Nat2Z.id.
  replace ((0 <=? Z.of_nat (length p)) &&
           (Z.of_nat (length p) + Z.of_nat (length new)
            <=? Z.of_nat (length p + (length old + length r))))
    with true
    by (symmetry; apply andb_true_iff; split; apply Z.leb_le; lia).
  rewrite firstn_app, Nat.sub_diag, firstn_all. cbn [firstn].
  rewrite app_nil_r.
  rewrite skipn_app, skipn_all2 by lia. cbn [app].
  replace (length p + length new - length p)%nat with (length old) by lia.
  rewrite skipn_app, skipn_all, Nat.sub_diag. reflexivity.
Qed.

Lemma load_middle (p bs r : image) :
  load (p ++ bs ++ r) (Z.of_nat (length p)) (length bs) = Some bs.
Proof.
  unfold load, in_bounds.
  rewrite !length_app, Nat2Z.id.
  replace ((0 <=? Z.of_nat (length p)) &&
           (Z.of_nat (length p) + Z.of_nat (length bs)
            <=? Z.of_nat (length p + (length bs + length r))))
    with true
    by (symmetry; apply andb_true_iff; split; apply Z.leb_le; lia).
  rewrite skipn_app, skipn_all, Nat.sub_diag. cbn [skipn app].
  rewrite firstn_app, Nat.sub_diag, firstn_all. cbn [firstn].
  now rewrite app_nil_r.
Qed.

Lemma store_length (img img' : image) (off : Z) (bs : list Byte.byte) :
  store img off bs = Some img' -> length img' = length img.
Proof.
  unfold store, in_bounds. intros H.
  destruct (0 <=? off) eqn:H0; cbn [andb] in H; [|discriminate].
  destruct (off + Z.of_nat (length bs) <=? Z.of_nat (length img)) eqn:H1;
    [|discriminate].
  apply Z.leb_le in H0, H1. injection H as <-.
  rewrite !length_app, length_firstn, length_skipn. lia.
Qed.

End Memory.

(** ** Layout of structures of [uint64_t] members *)

Section Uint64Layout.

Variable a : abi.
Hypothesis Hok : abi_ok a = true.

Lemma align64_ok :
  0 < alignof a uint64_t /\ 8 mod alignof a uint64_t = 0.
Proof.
  unfold abi_ok in Hok. rewrite forallb_forall in Hok.
  assert (H : align_ok a I64 = true) by (apply Hok; simpl; tauto).
  unfold align_ok in H. apply andb_true_iff in H as [H1 H2].
  apply Z.ltb_lt in H1. apply Z.eqb_eq in H2.
  change (sizeof (Tint I64 Unsigned)) with 8 in H2.
  unfold alignof, uint64_t. split; assumption.
Qed.

Lemma align_up_exact (off al : Z) :
  0 < al -> off mod al = 0 -> align_up off al = off.
Proof.
  intros Hpos Hmod. unfold align_up.
  apply Z.mod_divide in Hmod; [|lia]. destruct Hmod as [q ->].
  replace (q * al + al - 1) with (q * al + (al - 1)) by lia.
  rewrite Z.div_add_l by lia.
  rewrite (Z.div_small (al - 1) al) by lia. lia.
Qed.

Lemma align_up_64 (k : Z) :
  align_up (8 * k) (alignof a uint64_t) = 8 * k.
Proof.
  destruct align64_ok as [Hpos Hmod].
  apply align_up_exact; [assumption|].
  apply Z.mod_divide in Hmod; [|lia]. destruct Hmod as [q Hq].
  rewrite Hq. replace (q * alignof a uint64_t * k)
    with (q * k * alignof a uint64_t) by lia.
  apply Z.mod_mul. lia.
Qed.

Lemma place_uint64 (m : member) (ms : list member) (k : Z) :
  m_type m = uint64_t ->
  place a (8 * k) (m :: ms) = (m, 8 * k) :: place a (8 * (k + 1)) ms.
Proof.
  intros Ht. cbn [place]. rewrite Ht. rewrite align_up_64.
  change (sizeof uint64_t) with 8.
  replace (8 * k + 8) with (8 * (k + 1)) by lia. reflexivity.
Qed.

Lemma end_offset_uint64 (ms : list member) (k : Z) :
  Forall (fun m => m_type m = uint64_t) ms ->
  end_offset a (8 * k) ms = 8 * (k + Z.of_nat (length ms)).
Proof.
  intros H. revert k. induction H as [|m ms Ht _ IH]; intros k.
  - cbn [end_offset length Z.of_nat]. lia.
  - cbn [end_offset length]. rewrite Ht. rewrite align_up_64.
    change (sizeof uint64_t) with 8.
    replace (8 * k + 8) with (8 * (k + 1)) by lia.
    rewrite IH. f_equal. lia.
Qed.

Lemma struct_align_uint64 (ms : list member) :
  Forall (fun m => m_type m = uint64_t) ms ->
  struct_align a ms = 1 \/ struct_align a ms = alignof a uint64_t.
Proof.
  unfold struct_align.
  induction 1 as [|m ms Ht _ IH]; [left; reflexivity|].
  cbn [map fold_right]. rewrite Ht.
  pose proof align64_ok as [Hpos _].
  destruct IH as [-> | ->]; right; lia.
Qed.

Lemma sizeof_struct_uint64 (d : struct_decl) :
  Forall (fun m => m_type m = uint64_t) (s_members d) ->
  sizeof_struct a d = 8 * field_count d.
Proof.
  intros H. unfold sizeof_struct, field_count.
  change 0 with (8 * 0) at 1. rewrite end_offset_uint64 by assumption.
  rewrite Z.add_0_l.
  destruct (struct_align_uint64 _ H) as [-> | ->].
  - apply align_up_exact; [lia | apply Z.mod_1_r].
  - apply align_up_64.
Qed.

Lemma find_member_place (ms : list member) (k : Z) (i : nat) (m : member) :
  Forall (fun m => m_type m = uint64_t) ms ->
  NoDup (map m_name ms) ->
  nth_error ms i = Some m ->
  find_member (m_name m) (place a (8 * k) ms) = Some (m, 8 * (k + Z.of_nat i)).
Proof.
  intros Hall. revert k i.
  induction Hall as [|m0 ms Ht _ IH]; intros k i Hnd Hnth.
  - destruct i; discriminate.
  - rewrite place_uint64 by assumption. cbn [find_member].
    cbn [map] in Hnd. apply NoDup_cons_iff in Hnd as [Hnotin Hnd].
    destruct i as [|i]; cbn [nth_error] in Hnth.
    + injection Hnth as ->. rewrite String.eqb_refl.
      do 2 f_equal. lia.
    + destruct (String.eqb (m_name m) (m_name m0)) eqn:E.
      * apply String.eqb_eq in E. exfalso. apply Hnotin.
        rewrite <- E. apply in_map. eapply nth_error_In; eassumption.
      * rewrite (IH (k + 1) i Hnd Hnth). do 2 f_equal. lia.
Qed.

Lemma find_member_inv (ms : list member) (k : Z) (f : string) (m : member)
      (off : Z) :
  Forall (fun m => m_type m = uint64_t) ms ->
  find_member f (place a (8 * k) ms) = Some (m, off) ->
  exists i, nth_error ms i = Some m /\ m_name m = f
            /\ off = 8 * (k + Z.of_nat i).
Proof.
  intros Hall. revert k.
  induction Hall as [|m0 ms Ht _ IH]; intros k Hfind.
  - discriminate.
  - rewrite place_uint64 in Hfind by assumption. cbn [find_member] in Hfind.
    destruct (String.eqb f (m_name m0)) eqn:E.
    + assert (Hm : m0 = m) by congruence.
      assert (Ho : 8 * k = off) by congruence.
      subst m off. apply String.eqb_eq in E.
      exists 0%nat. repeat split; [now symmetry | cbn [Z.of_nat]; lia].
    + destruct (IH _ Hfind) as (i & Hn & Hname & Hoff).
      exists (S i). repeat split; [assumption .. |]. lia.
Qed.

End Uint64Layout.

(** ** Objects whose members are all [uint64_t] *)

Section Uint64Objects.

Variable a : abi.
Hypothesis Hok : abi_ok a = true.

Lemma convert_uint64 (v : Z) : convert uint64_t v = v mod 2 ^ 64.
Proof. reflexivity. Qed.

Lemma convert_uint64_range (v : Z) : 0 <= convert uint64_t v <= UINT64_MAX.
Proof.
  rewrite convert_uint64. unfold UINT64_MAX.
  assert (0 <= v mod 2 ^ 64 < 2 ^ 64) by (apply Z.mod_pos_bound; lia).
  lia.
Qed.

Lemma convert_uint64_id (v : Z) :
  0 <= v <= UINT64_MAX -> convert uint64_t v = v.
Proof.
  unfold UINT64_MAX. intros H. rewrite convert_uint64.
  apply Z.mod_small. lia.
Qed.

Lemma convert_uint64_idem (v : Z) :
  convert uint64_t (convert uint64_t v) = convert uint64_t v.
Proof. apply convert_uint64_id, convert_uint64_range. Qed.

Lemma decode_encode_uint64 (v : Z) :
  convert uint64_t
    (decode_int (order a)
       (encode_int (order a) (size_nat uint64_t) (convert uint64_t v)))
  = convert uint64_t v.
Proof.
  rewrite decode_encode_int.
  change (256 ^ Z.of_nat (size_nat uint64_t)) with (2 ^ 64).
  rewrite <- !convert_uint64. now rewrite !convert_uint64_idem.
Qed.

Lemma packed_length (ms : list member) (vs : list Z) :
  Forall (fun m => m_type m = uint64_t) ms ->
  length vs = length ms ->
  length (packed a ms vs) = (8 * length ms)%nat.
Proof.
  intros H. revert vs.
  induction H as [|m ms Ht _ IH]; intros [|v vs] Hlen;
    try discriminate; [reflexivity|].
  cbn [packed length]. rewrite length_app, length_encode_int, Ht.
  change (size_nat uint64_t) with 8%nat.
  cbn [length] in Hlen. rewrite IH by lia. lia.
Qed.

Lemma packed_app (ms1 ms2 : list member) (vs1 vs2 : list Z) :
  length vs1 = length ms1 ->
  packed a (ms1 ++ ms2) (vs1 ++ vs2) = packed a ms1 vs1 ++ packed a ms2 vs2.
Proof.
  revert vs1. induction ms1 as [|m ms1 IH]; intros [|v vs1] Hlen;
    try discriminate; [reflexivity|].
  cbn [app packed]. cbn [length] in Hlen.
  rewrite IH by lia. now rewrite app_assoc.
Qed.

(** Initialising the members one after the other overwrites the storage
    from left to right with the encodings of the values. *)
Lemma init_members_packed (ms : list member) :
  Forall (fun m => m_type m = uint64_t) ms ->
  forall (vs : list Z) (p r : image) (k : Z),
    length vs = length ms ->
    Z.of_nat (length p) = 8 * k ->
    length r = (8 * length ms)%nat ->
    init_members a (p ++ r) (place a (8 * k) ms) vs
    = Some (p ++ packed a ms vs).
Proof.
  induction 1 as [|m ms Ht Hall IH]; intros [|v vs] p r k Hlen Hp Hr;
    try discriminate.
  - destruct r; [reflexivity | discriminate].
  - rewrite place_uint64 by assumption. cbn [init_members packed].
    unfold store_int. rewrite Ht.
    set (enc := encode_int (order a) (size_nat uint64_t) (convert uint64_t v)).
    assert (Henc : length enc = 8%nat) by apply length_encode_int.
    cbn [length] in Hlen, Hr.
    rewrite <- (firstn_skipn 8 r), <- Hp.
    rewrite store_middle
      by (rewrite length_firstn, Henc; lia).
    rewrite (app_assoc p enc), (app_assoc p enc).
    apply IH.
    + lia.
    + rewrite length_app, Henc. lia.
    + rewrite length_skipn. lia.
Qed.

Lemma construct_packed (d : struct_decl) (raw : image) (vs : list Z) :
  Forall (fun m => m_type m = uint64_t) (s_members d) ->
  Z.of_nat (length raw) = sizeof_struct a d ->
  length vs = length (s_members d) ->
  construct a d raw vs = Some (packed a (s_members d) vs).
Proof.
  intros Hall Hraw Hlen. unfold construct.
  rewrite Hraw, Z.eqb_refl. unfold layout.
  rewrite sizeof_struct_uint64 in Hraw by assumption.
  unfold field_count in Hraw.
  change 0 with (8 * 0).
  apply (init_members_packed _ Hall vs [] raw 0); [assumption | reflexivity | lia].
Qed.

(** Reading the [i]-th member of a packed object. *)
Lemma read_member_packed (d : struct_decl) (vs : list Z) (i : nat)
      (m : member) (v : Z) :
  uint64_record d ->
  length vs = length (s_members d) ->
  nth_error (s_members d) i = Some m ->
  nth_error vs i = Some v ->
  read_member a d (packed a (s_members d) vs) (m_name m)
  = Some (convert uint64_t v).
Proof.
  intros [Hall Hnd] Hlen Hm Hv.
  assert (Hall' : Forall (fun m => m_type m = uint64_t) (s_members d))
    by (eapply Forall_impl; [|exact Hall]; simpl; tauto).
  unfold read_member, layout. change 0 with (8 * 0).
  rewrite (find_member_place a Hok _ 0 i m Hall' Hnd Hm).
  assert (Ht : m_type m = uint64_t).
  { rewrite Forall_forall in Hall'. apply Hall'.
    eapply nth_error_In; eassumption. }
  destruct (nth_error_split _ _ Hm) as (ms1 & ms2 & Ems & Hl1).
  destruct (nth_error_split _ _ Hv) as (vs1 & vs2 & Evs & Hl2).
  rewrite Ems, Evs in *.
  rewrite packed_app by lia. cbn [packed]. rewrite Ht.
  apply Forall_app in Hall' as [Hall1 _].
  assert (Hp : Z.of_nat (length (packed a ms1 vs1)) = 8 * (0 + Z.of_nat i)).
  { rewrite packed_length by (assumption || lia). lia. }
  rewrite <- Hp. unfold load_int.
  set (enc := encode_int (order a) (size_nat uint64_t) (convert uint64_t v)).
  replace (size_nat uint64_t) with (length enc) at 1
    by apply length_encode_int.
  rewrite load_middle. cbn [option_map]. f_equal.
  apply decode_encode_uint64.
Qed.

(** Assigning to the [i]-th member of a packed object. *)
Lemma assign_packed (d : struct_decl) (vs : list Z) (i : nat)
      (m : member) (w : Z) :
  uint64_record d ->
  length vs = length (s_members d) ->
  nth_error (s_members d) i = Some m ->
  assign a d (packed a (s_members d) vs) (m_name m) w
  = Some (packed a (s_members d) (update i w vs)).
Proof.
  intros [Hall Hnd] Hlen Hm.
  assert (Hall' : Forall (fun m => m_type m = uint64_t) (s_members d))
    by (eapply Forall_impl; [|exact Hall]; simpl; tauto).
  unfold assign, layout. change 0 with (8 * 0).
  rewrite (find_member_place a Hok _ 0 i m Hall' Hnd Hm).
  assert (Hin : In m (s_members d)) by (eapply nth_error_In; eassumption).
  rewrite Forall_forall in Hall. destruct (Hall m Hin) as [Ht Hc].
  rewrite Hc.
  assert (Hi : (i < length vs)%nat).
  { rewrite Hlen. apply nth_error_Some. congruence. }
  destruct (nth_error vs i) as [v|] eqn:Hv;
    [|apply nth_error_None in Hv; lia].
  destruct (nth_error_split _ _ Hm) as (ms1 & ms2 & Ems & Hl1).
  destruct (nth_error_split _ _ Hv) as (vs1 & vs2 & Evs & Hl2).
  assert (Hupd : update i w vs = vs1 ++ w :: vs2).
  { unfold update. rewrite Evs, <- Hl2.
    rewrite firstn_app, Nat.sub_diag, firstn_all. cbn [firstn].
    rewrite app_nil_r.
    replace (S (length vs1)) with (length vs1 + 1)%nat by lia.
    rewrite skipn_app, skipn_all2 by lia.
    replace (length vs1 + 1 - length vs1)%nat with 1%nat by lia.
    reflexivity. }
  rewrite Hupd, Evs, Ems in *.
  rewrite !packed_app by lia. cbn [packed]. rewrite Ht.
  apply Forall_app in Hall' as [Hall1 _].
  assert (Hp : Z.of_nat (length (packed a ms1 vs1)) = 8 * (0 + Z.of_nat i)).
  { rewrite packed_length by (assumption || lia). lia. }
  rewrite <- Hp. unfold store_int.
  apply store_middle. now rewrite !length_encode_int.
Qed.

End Uint64Objects.

(** ** Programs over a constructed object *)

Section Programs.

Variable a : abi.
Hypothesis Hok : abi_ok a = true.

Lemma length_update (i : nat) (w : Z) (vs : list Z) :
  (i < length vs)%nat -> length (update i w vs) = length vs.
Proof.
  intros Hi. unfold update.
  rewrite length_app, length_firstn. cbn [length]. rewrite length_skipn. lia.
Qed.

Lemma nth_error_update_same (i : nat) (w : Z) (vs : list Z) :
  (i < length vs)%nat -> nth_error (update i w vs) i = Some w.
Proof.
  intros Hi. unfold update.
  rewrite nth_error_app2 by (rewrite length_firstn; lia).
  rewrite length_firstn.
  replace (i - Nat.min i (length vs))%nat with 0%nat by lia. reflexivity.
Qed.

Lemma nth_error_update_other (i j : nat) (w : Z) (vs : list Z) :
  (j < length vs)%nat -> i <> j ->
  nth_error (update j w vs) i = nth_error vs i.
Proof.
  intros Hj Hij. unfold update.
  destruct (Nat.lt_ge_cases i j) as [Hlt | Hge].
  - rewrite nth_error_app1 by (rewrite length_firstn; lia).
    rewrite nth_error_firstn.
    now replace (i <? j)%nat with true by (symmetry; apply Nat.ltb_lt; lia).
  - rewrite nth_error_app2 by (rewrite length_firstn; lia).
    rewrite length_firstn.
    replace (i - Nat.min j (length vs))%nat with (S (i - S j)) by lia.
    cbn [nth_error]. rewrite nth_error_skipn. f_equal. lia.
Qed.

Lemma length_place (off : Z) (ms : list member) :
  length (place a off ms) = length ms.
Proof.
  revert off. induction ms as [|m ms IH]; intros off; [reflexivity|].
  cbn [place length]. now rewrite IH.
Qed.

Lemma init_members_arity (l : list (member * Z)) (vs : list Z)
      (img img' : image) :
  init_members a img l vs = Some img' -> length vs = length l.
Proof.
  revert vs img. induction l as [|[m off] l IH]; intros [|v vs] img H;
    cbn [init_members] in H; try discriminate; [reflexivity|].
  destruct (store_int a (m_type m) img off v) as [img1|]; [|discriminate].
  cbn [length]. f_equal. eapply IH; eassumption.
Qed.

(** A construction that succeeds was given storage of the size of the
    structure and one value for each member. *)
Lemma construct_inv (d : struct_decl) (raw : image) (vs : list Z)
      (img : image) :
  construct a d raw vs = Some img ->
  Z.of_nat (length raw) = sizeof_struct a d
  /\ length vs = length (s_members d).
Proof.
  unfold construct. intros H.
  destruct (Z.of_nat (length raw) =? sizeof_struct a d) eqn:E; [|discriminate].
  apply Z.eqb_eq in E. split; [assumption|].
  apply init_members_arity in H. unfold layout in H.
  now rewrite length_place in H.
Qed.

Lemma members_uint64 (d : struct_decl) :
  uint64_record d -> Forall (fun m => m_type m = uint64_t) (s_members d).
Proof.
  intros [Hall _]. eapply Forall_impl; [|exact Hall]. simpl. tauto.
Qed.

Lemma nth_error_names (d : struct_decl) (i : nat) (f : string) :
  nth_error (member_names d) i = Some f ->
  exists m, nth_error (s_members d) i = Some m /\ m_name m = f.
Proof.
  unfold member_names. rewrite nth_error_map.
  destruct (nth_error (s_members d) i) as [m|]; [|discriminate].
  cbn [option_map]. intros H. exists m. split; congruence.
Qed.

(** Running a program keeps the object packed; the members the program
    does not assign to keep their values. *)
Lemma run_packed (d : struct_decl) (ops : list access) :
  uint64_record d ->
  forall (ws : list Z) (img' : image),
    length ws = length (s_members d) ->
    run a d (packed a (s_members d) ws) ops = Some img' ->
    exists ws',
      img' = packed a (s_members d) ws'
      /\ length ws' = length (s_members d)
      /\ forall i f, nth_error (member_names d) i = Some f ->
                     existsb (assigns_to f) ops = false ->
                     nth_error ws' i = nth_error ws i.
Proof.
  intros Hrec. induction ops as [|op ops IH]; intros ws img' Hlen Hrun.
  - cbn [run] in Hrun. injection Hrun as <-. exists ws. auto.
  - cbn [run] in Hrun.
    destruct (step a d (packed a (s_members d) ws) op) as [img1|] eqn:Hstep;
      [|discriminate].
    destruct op as [g | g w]; cbn [step] in Hstep.
    + destruct (read_member a d (packed a (s_members d) ws) g);
        [|discriminate].
      injection Hstep as <-.
      destruct (IH ws img' Hlen Hrun) as (ws' & E & Hl & Hkeep).
      exists ws'. repeat split; [assumption .. |].
      intros i f Hf Hno. cbn [existsb assigns_to orb] in Hno.
      exact (Hkeep i f Hf Hno).
    + assert (Hg : exists j m, nth_error (s_members d) j = Some m
                               /\ m_name m = g).
      { unfold assign, layout in Hstep. change 0 with (8 * 0) in Hstep.
        destruct (find_member g (place a (8 * 0) (s_members d)))
          as [[m off]|] eqn:Hfind; [|discriminate].
        apply (find_member_inv a Hok) in Hfind;
          [|apply members_uint64; assumption].
        destruct Hfind as (j & Hj & Hname & _). eauto. }
      destruct Hg as (j & m & Hj & Hname). subst g.
      rewrite (assign_packed a Hok d ws j m w Hrec Hlen Hj) in Hstep.
      injection Hstep as <-.
      assert (Hjlt : (j < length ws)%nat).
      { rewrite Hlen. apply nth_error_Some. congruence. }
      destruct (IH (update j w ws) img') as (ws' & E & Hl & Hkeep);
        [rewrite length_update; assumption | assumption |].
      exists ws'. repeat split; [assumption .. |].
      intros i f Hf Hno. cbn [existsb assigns_to] in Hno.
      apply orb_false_iff in Hno as [Hfg Hno].
      rewrite (Hkeep i f Hf Hno).
      apply nth_error_update_other; [assumption|]. intros ->.
      destruct (nth_error_names d j f Hf) as (m' & Hm' & Hn').
      assert (m' = m) by congruence. subst m'.
      rewrite Hn', String.eqb_refl in Hfg. discriminate.
Qed.

End Programs.

Lemma event_structs_uint64 (d : struct_decl) :
  In d event_structs -> uint64_record d.
Proof.
  intros Hin. cbn [event_structs In] in Hin.
  destruct Hin as [<- | [<- | [<- | [<- | []]]]];
    (split;
     [ repeat (apply Forall_cons; [split; reflexivity|]); apply Forall_nil
     | repeat (apply NoDup_cons;
               [cbn [In]; intuition discriminate|]); apply NoDup_nil ]).
Qed.

(** The layout rule does pad when widths are mixed: the absence of padding
    in the event records comes from their members, not from the rule. *)
Example mixed_widths_are_padded :
  let d := {| s_tag := "mixed";
              s_members := [ field uint8_t "tag"; field uint64_t "value" ] |} in
  offsetof bpf_le d "value" = Some 8
  /\ sizeof_struct bpf_le d = 16
  /\ padding bpf_le d = 7
  /\ offsetof i386 d "value" = Some 4
  /\ padding i386 d = 3.
Proof. repeat split; reflexivity. Qed.

(** ** The declarations *)

(** C1.  [struct RecoveryMetrics] has exactly nine members, in this order:
    path, min_rtt, smoothed_rtt, latest_rtt, rtt_variance, max_ack_delay,
    pto_count, congestion_window, bytes_in_flight; each of them has type
    [uint64_t], the unsigned integer type of 64 bits, whose values are the
    integers from 0 to 2^64 - 1. *)
Theorem RecoveryMetrics_members :
  member_names RecoveryMetrics
  = [ "path"; "min_rtt"; "smoothed_rtt"; "latest_rtt"; "rtt_variance";
      "max_ack_delay"; "pto_count"; "congestion_window"; "bytes_in_flight" ]
  /\ field_count RecoveryMetrics = 9
  /\ (forall m, In m (s_members RecoveryMetrics) -> m_type m = uint64_t)
  /\ is_unsigned uint64_t = true
  /\ bitwidth uint64_t = 64
  /\ (forall v, representable uint64_t v <-> 0 <= v <= 2 ^ 64 - 1).
Proof.
  do 2 (split; [reflexivity|]).
  split; [|split; [reflexivity | split; [reflexivity|]]].
  - intros m Hin. cbn [RecoveryMetrics s_members In] in Hin.
    repeat (destruct Hin as [<- | Hin]; [reflexivity|]). destruct Hin.
  - intros v. unfold representable.
    change (min_value uint64_t) with 0.
    change (max_value uint64_t) with (2 ^ 64 - 1). tauto.
Qed.

(** C5.  [struct RxStreamProgress] and [struct TxStreamProgress] each have
    exactly one member, named bytes, of type [uint64_t]. *)
Theorem StreamProgress_members :
  member_names RxStreamProgress = [ "bytes" ]
  /\ member_types RxStreamProgress = [ uint64_t ]
  /\ field_count RxStreamProgress = 1
  /\ member_names TxStreamProgress = [ "bytes" ]
  /\ member_types TxStreamProgress = [ uint64_t ]
  /\ field_count TxStreamProgress = 1
  /\ is_unsigned uint64_t = true
  /\ bitwidth uint64_t = 64.
Proof. repeat split; reflexivity. Qed.

(** C6.  [struct EndpointDatagramReceived] has exactly one member, named
    len, of type [uint64_t]. *)
Theorem EndpointDatagramReceived_members :
  member_names EndpointDatagramReceived = [ "len" ]
  /\ member_types EndpointDatagramReceived = [ uint64_t ]
  /\ field_count EndpointDatagramReceived = 1
  /\ is_unsigned uint64_t = true
  /\ bitwidth uint64_t = 64.
Proof. repeat split; reflexivity. Qed.

(** ** Construction and reads of the event records *)

Section EventObjects.

Variable a : abi.
Hypothesis Hok : abi_ok a = true.
Variable d : struct_decl.
Hypothesis Hd : In d event_structs.

Lemma construct_event (raw : image) (vs : list Z) :
  Z.of_nat (length raw) = sizeof_struct a d ->
  length vs = length (s_members d) ->
  construct a d raw vs = Some (packed a (s_members d) vs).
Proof.
  intros Hraw Hlen. apply construct_packed; try assumption.
  apply members_uint64, event_structs_uint64, Hd.
Qed.

Lemma read_event (vs : list Z) (i : nat) (f : string) (v : Z) :
  length vs = length (s_members d) ->
  nth_error (member_names d) i = Some f ->
  nth_error vs i = Some v ->
  read_member a d (packed a (s_members d) vs) f = Some (convert uint64_t v).
Proof.
  intros Hlen Hf Hv.
  destruct (nth_error_names d i f Hf) as (m & Hm & <-).
  eapply read_member_packed; try eassumption.
  apply event_structs_uint64, Hd.
Qed.

Lemma read_all_event (vs : list Z) :
  length vs = length (s_members d) ->
  read_all a d (packed a (s_members d) vs)
  = map (fun v => Some (convert uint64_t v)) vs.
Proof.
  intros Hlen. apply nth_error_ext. intros i.
  unfold read_all. rewrite !nth_error_map.
  destruct (nth_error (member_names d) i) as [f|] eqn:Hf.
  - assert (Hi : (i < length vs)%nat).
    { rewrite Hlen, <- (length_map m_name). apply nth_error_Some.
      unfold member_names in Hf. congruence. }
    destruct (nth_error vs i) as [v|] eqn:Hv;
      [|apply nth_error_None in Hv; lia].
    cbn [option_map]. f_equal. eapply read_event; eassumption.
  - apply nth_error_None in Hf. unfold member_names in Hf.
    rewrite length_map, <- Hlen in Hf.
    apply nth_error_None in Hf. now rewrite Hf.
Qed.

End EventObjects.

(** C3.  For every record kind, on every ABI whose alignments divide the
    sizes of the integer types: member number i (counting from 1) lies at
    byte offset 8*(i-1), every member is 64 bits wide, the structure
    occupies 8 bytes for each member and has no padding (72 bytes for
    RecoveryMetrics, 8 bytes for each of the three others), and the bytes of
    a constructed record are the 8-byte encodings of its values, in the
    order of declaration. *)
Theorem event_layout (a : abi) (d : struct_decl) :
  abi_ok a = true ->
  In d event_structs ->
  (forall (i : Z) (f : string),
      1 <= i ->
      nth_error (member_names d) (Z.to_nat (i - 1)) = Some f ->
      offsetof a d f = Some (8 * (i - 1)))
  /\ (forall m, In m (s_members d) -> sizeof (m_type m) * CHAR_BIT = 64)
  /\ sizeof_struct a d = 8 * field_count d
  /\ padding a d = 0
  /\ (forall (raw : image) (vs : list Z),
         Z.of_nat (length raw) = sizeof_struct a d ->
         length vs = length (s_members d) ->
         construct a d raw vs = Some (packed a (s_members d) vs))
  /\ sizeof_struct a RecoveryMetrics = 72
  /\ sizeof_struct a RxStreamProgress = 8
  /\ sizeof_struct a TxStreamProgress = 8
  /\ sizeof_struct a EndpointDatagramReceived = 8.
Proof.
  intros Hok Hd.
  pose proof (event_structs_uint64 d Hd) as Hrec.
  pose proof (members_uint64 d Hrec) as Hall.
  assert (Hsize : forall e, In e event_structs ->
                            sizeof_struct a e = 8 * field_count e).
  { intros e He. apply sizeof_struct_uint64; [assumption|].
    apply members_uint64, event_structs_uint64, He. }
  split; [|split; [|split; [|split; [|split]]]].
  - intros i f Hi Hf.
    destruct (nth_error_names d _ f Hf) as (m & Hm & <-).
    unfold offsetof, layout. change 0 with (8 * 0).
    rewrite (find_member_place a Hok _ 0 _ m Hall (proj2 Hrec) Hm).
    cbn [option_map snd]. f_equal. rewrite Z2Nat.id by lia. lia.
  - intros m Hm. rewrite Forall_forall in Hall. now rewrite (Hall m Hm).
  - apply Hsize, Hd.
  - unfold padding. rewrite (Hsize d Hd).
    cbn [event_structs In] in Hd.
    destruct Hd as [<- | [<- | [<- | [<- | []]]]]; reflexivity.
  - intros raw vs. now apply construct_event.
  - repeat split; rewrite Hsize; try reflexivity; cbn [event_structs In]; tauto.
Qed.

Lemma event_layout_witness :
  abi_ok i386 = true
  /\ In RecoveryMetrics event_structs
  /\ offsetof i386 RecoveryMetrics "path" = Some 0
  /\ offsetof i386 RecoveryMetrics "bytes_in_flight" = Some 64
  /\ sizeof_struct i386 RecoveryMetrics = 72
  /\ padding i386 RecoveryMetrics = 0.
Proof.
  assert (Hok : abi_ok i386 = true) by reflexivity.
  assert (Hd : In RecoveryMetrics event_structs) by (simpl; tauto).
  destruct (event_layout i386 RecoveryMetrics Hok Hd)
    as (Hoff & _ & _ & Hpad & _ & Hsz & _).
  split; [exact Hok|]. split; [exact Hd|].
  split; [apply (Hoff 1); [lia | reflexivity]|].
  split; [apply (Hoff 9); [lia | reflexivity]|].
  split; [exact Hsz | exact Hpad].
Defined.

(** C7.  Construction has no error path: for each of the four record
    kinds, given storage of the size of the structure and one value for
    each member, construction yields a record, whatever the values are
    (values outside the range of [uint64_t] are converted, not rejected). *)
Theorem construct_total (a : abi) (d : struct_decl) (raw : image)
        (vs : list Z) :
  abi_ok a = true ->
  In d event_structs ->
  Z.of_nat (length raw) = sizeof_struct a d ->
  length vs = length (s_members d) ->
  exists img,
    construct a d raw vs = Some img
    /\ Z.of_nat (length img) = sizeof_struct a d.
Proof.
  intros Hok Hd Hraw Hlen.
  exists (packed a (s_members d) vs). split.
  - now apply construct_event.
  - pose proof (members_uint64 d (event_structs_uint64 d Hd)) as Hall.
    rewrite packed_length by assumption.
    rewrite sizeof_struct_uint64 by assumption.
    unfold field_count. lia.
Qed.

Lemma construct_total_witness :
  exists img,
    construct bpf_be EndpointDatagramReceived (filled 8)
              [18446744073709551615] = Some img
    /\ Z.of_nat (length img) = sizeof_struct bpf_be EndpointDatagramReceived.
Proof.
  apply construct_total; [reflexivity | simpl; tauto | reflexivity | reflexivity].
Defined.

(** C2.  For each of the four record kinds and every tuple of unsigned
    64-bit values, constructing a record from the tuple and reading every
    member back, in declaration order, yields the values of the tuple. *)
Theorem construct_read_roundtrip (a : abi) (d : struct_decl) (raw : image)
        (vs : list Z) :
  abi_ok a = true ->
  In d event_structs ->
  Z.of_nat (length raw) = sizeof_struct a d ->
  length vs = length (s_members d) ->
  Forall (fun v => 0 <= v <= UINT64_MAX) vs ->
  exists img,
    construct a d raw vs = Some img
    /\ read_all a d img = map Some vs.
Proof.
  intros Hok Hd Hraw Hlen Hrange.
  exists (packed a (s_members d) vs). split.
  - now apply construct_event.
  - rewrite read_all_event by assumption.
    apply map_ext_Forall.
    eapply Forall_impl; [|exact Hrange].
    intros v Hv. cbn beta. f_equal. now apply convert_uint64_id.
Qed.

(** The example of the specification: path=1, min_rtt=2000,
    smoothed_rtt=2100, latest_rtt=2050, rtt_variance=50,
    max_ack_delay=25000, pto_count=0, congestion_window=65536,
    bytes_in_flight=1200. *)
Lemma construct_read_roundtrip_witness :
  exists img,
    construct bpf_le RecoveryMetrics (zeroed 72)
              [1; 2000; 2100; 2050; 50; 25000; 0; 65536; 1200] = Some img
    /\ read_all bpf_le RecoveryMetrics img
       = [ Some 1; Some 2000; Some 2100; Some 2050; Some 50; Some 25000;
           Some 0; Some 65536; Some 1200 ].
Proof.
  apply (construct_read_roundtrip bpf_le RecoveryMetrics (zeroed 72)
           [1; 2000; 2100; 2050; 50; 25000; 0; 65536; 1200]).
  - reflexivity.
  - simpl; tauto.
  - reflexivity.
  - reflexivity.
  - repeat (apply Forall_cons; [unfold UINT64_MAX; lia|]). apply Forall_nil.
Defined.

(** C4.  Every member of every record kind holds every unsigned 64-bit
    value: a record constructed with the value v, 0 <= v <= 2^64 - 1, for
    one member, and any values for the others, reads back exactly v from
    that member. *)
Theorem member_full_range (a : abi) (d : struct_decl) (raw : image)
        (vs : list Z) (i : nat) (f : string) (v : Z) :
  abi_ok a = true ->
  In d event_structs ->
  Z.of_nat (length raw) = sizeof_struct a d ->
  length vs = length (s_members d) ->
  nth_error (member_names d) i = Some f ->
  0 <= v <= UINT64_MAX ->
  exists img,
    construct a d raw (update i v vs) = Some img
    /\ read_member a d img f = Some v.
Proof.
  intros Hok Hd Hraw Hlen Hf Hv.
  assert (Hi : (i < length vs)%nat).
  { rewrite Hlen, <- (length_map m_name). apply nth_error_Some.
    unfold member_names in Hf. congruence. }
  assert (Hlen' : length (update i v vs) = length (s_members d))
    by (rewrite length_update; assumption).
  exists (packed a (s_members d) (update i v vs)). split.
  - now apply construct_event.
  - rewrite (read_event a Hok d Hd _ i f v Hlen' Hf)
      by (apply nth_error_update_same; assumption).
    f_equal. now apply convert_uint64_id.
Qed.

Lemma member_full_range_witness :
  (exists img,
      construct bpf_le RecoveryMetrics (zeroed 72)
                (update 8 18446744073709551615 [1; 2; 3; 4; 5; 6; 7; 8; 9])
      = Some img
      /\ read_member bpf_le RecoveryMetrics img "bytes_in_flight"
         = Some 18446744073709551615)
  /\ (exists img,
         construct bpf_be TxStreamProgress (filled 8) (update 0 0 [5])
         = Some img
         /\ read_member bpf_be TxStreamProgress img "bytes" = Some 0).
Proof.
  split.
  - apply (member_full_range bpf_le RecoveryMetrics (zeroed 72)
             [1; 2; 3; 4; 5; 6; 7; 8; 9] 8 "bytes_in_flight");
      [reflexivity | simpl; tauto | reflexivity | reflexivity | reflexivity
      | unfold UINT64_MAX; lia].
  - apply (member_full_range bpf_be TxStreamProgress (filled 8) [5] 0 "bytes");
      [reflexivity | simpl; tauto | reflexivity | reflexivity | reflexivity
      | unfold UINT64_MAX; lia].
Defined.

(** C9.  Every member of every constructed record of the four kinds reads
    a value that is at least 0 (and at most 2^64 - 1), whatever integers
    the record was constructed from. *)
Theorem members_nonnegative (a : abi) (d : struct_decl) (raw : image)
        (vs : list Z) :
  abi_ok a = true ->
  In d event_structs ->
  Z.of_nat (length raw) = sizeof_struct a d ->
  length vs = length (s_members d) ->
  exists img,
    construct a d raw vs = Some img
    /\ forall f, In f (member_names d) ->
                 exists v, read_member a d img f = Some v
                           /\ 0 <= v <= UINT64_MAX.
Proof.
  intros Hok Hd Hraw Hlen.
  exists (packed a (s_members d) vs). split; [now apply construct_event|].
  intros f Hf. apply In_nth_error in Hf as [i Hi].
  assert (Hlt : (i < length vs)%nat).
  { rewrite Hlen, <- (length_map m_name). apply nth_error_Some.
    unfold member_names in Hi. congruence. }
  destruct (nth_error vs i) as [v|] eqn:Hv;
    [|apply nth_error_None in Hv; lia].
  exists (convert uint64_t v). split.
  - eapply read_event; eassumption.
  - apply convert_uint64_range.
Qed.

Lemma members_nonnegative_witness :
  exists img,
    construct bpf_le RxStreamProgress (zeroed 8) [-1] = Some img
    /\ forall f, In f (member_names RxStreamProgress) ->
                 exists v, read_member bpf_le RxStreamProgress img f = Some v
                           /\ 0 <= v <= UINT64_MAX.
Proof.
  apply members_nonnegative;
    [reflexivity | simpl; tauto | reflexivity | reflexivity].
Defined.

Lemma packed_order (a1 a2 : abi) (ms : list member) (vs : list Z) :
  order a1 = order a2 -> packed a1 ms vs = packed a2 ms vs.
Proof.
  intros Ho. revert vs.
  induction ms as [|m ms IH]; intros [|v vs]; try reflexivity.
  cbn [packed]. now rewrite Ho, IH.
Qed.

(** C10.  Construction and member reads are deterministic.  Two records
    constructed from the same tuple are equal byte for byte, whatever the
    storage held before (on targets of the same byte order), and the values
    read from a record are a function of the tuple it was constructed with
    and of nothing else: not of the previous contents of the storage, and
    not of the byte order or alignment of the target. *)
Theorem construct_deterministic (a1 a2 : abi) (d : struct_decl)
        (raw1 raw2 : image) (vs1 vs2 : list Z) :
  abi_ok a1 = true ->
  abi_ok a2 = true ->
  In d event_structs ->
  Z.of_nat (length raw1) = sizeof_struct a1 d ->
  Z.of_nat (length raw2) = sizeof_struct a2 d ->
  length vs1 = length (s_members d) ->
  vs1 = vs2 ->
  exists img1 img2,
    construct a1 d raw1 vs1 = Some img1
    /\ construct a2 d raw2 vs2 = Some img2
    /\ (order a1 = order a2 -> img1 = img2)
    /\ read_all a1 d img1 = read_all a2 d img2
    /\ read_all a1 d img1 = map (fun v => Some (convert uint64_t v)) vs1.
Proof.
  intros Hok1 Hok2 Hd Hraw1 Hraw2 Hlen <-.
  exists (packed a1 (s_members d) vs1), (packed a2 (s_members d) vs1).
  split; [now apply construct_event|].
  split; [now apply construct_event|].
  split; [apply packed_order|].
  rewrite !read_all_event by assumption. split; reflexivity.
Qed.

Lemma construct_deterministic_witness :
  exists img1 img2,
    construct bpf_le RecoveryMetrics (zeroed 72)
              [1; 2000; 2100; 2050; 50; 25000; 0; 65536; 1200] = Some img1
    /\ construct i386 RecoveryMetrics (filled 72)
                 [1; 2000; 2100; 2050; 50; 25000; 0; 65536; 1200] = Some img2
    /\ (order bpf_le = order i386 -> img1 = img2)
    /\ read_all bpf_le RecoveryMetrics img1 = read_all i386 RecoveryMetrics img2
    /\ read_all bpf_le RecoveryMetrics img1
       = map (fun v => Some (convert uint64_t v))
             [1; 2000; 2100; 2050; 50; 25000; 0; 65536; 1200].
Proof.
  apply construct_deterministic;
    [reflexivity | reflexivity | simpl; tauto | reflexivity | reflexivity
    | reflexivity | reflexivity].
Defined.

(** C8, as the specification states it, fails: the members are not
    [const]-qualified, so a record can be assigned to after construction,
    and a read after the assignment returns the assigned value, not the
    value supplied at construction. *)
Lemma assignment_changes_member :
  ~ (forall (ops : list access) (img img' : image),
        construct bpf_le RxStreamProgress (zeroed 8) [1] = Some img ->
        run bpf_le RxStreamProgress img ops = Some img' ->
        read_member bpf_le RxStreamProgress img' "bytes" = Some 1).
Proof.
  intros H.
  assert (Hc : construct bpf_le RxStreamProgress (zeroed 8) [1]
               = Some (map byte_of_Z [1; 0; 0; 0; 0; 0; 0; 0]))
    by reflexivity.
  assert (Hr : run bpf_le RxStreamProgress
                   (map byte_of_Z [1; 0; 0; 0; 0; 0; 0; 0])
                   [Assign "bytes" 2]
               = Some (map byte_of_Z [2; 0; 0; 0; 0; 0; 0; 0]))
    by reflexivity.
  specialize (H _ _ _ Hc Hr). vm_compute in H. discriminate H.
Qed.

(** C8, amended.  The header declares no operation that changes a record,
    and reading a member changes nothing; but no member is
    [const]-qualified, so a record is not immutable.  A member read
    performed at any time after construction returns the value supplied at
    construction provided no assignment to that member was performed in
    between: reads, and assignments to other members, leave it unchanged. *)
Theorem read_unassigned_member (a : abi) (d : struct_decl) (raw : image)
        (vs : list Z) (ops : list access) (img img' : image)
        (i : nat) (f : string) (v : Z) :
  abi_ok a = true ->
  In d event_structs ->
  construct a d raw vs = Some img ->
  run a d img ops = Some img' ->
  nth_error (member_names d) i = Some f ->
  nth_error vs i = Some v ->
  0 <= v <= UINT64_MAX ->
  existsb (assigns_to f) ops = false ->
  read_member a d img' f = Some v.
Proof.
  intros Hok Hd Hc Hrun Hf Hv Hrange Hno.
  destruct (construct_inv a d raw vs img Hc) as [Hraw Hlen].
  rewrite (construct_event a Hok d Hd raw vs Hraw Hlen) in Hc.
  injection Hc as <-.
  destruct (run_packed a Hok d ops (event_structs_uint64 d Hd) vs img'
                       Hlen Hrun) as (ws & -> & Hl & Hkeep).
  rewrite (read_event a Hok d Hd ws i f v Hl Hf)
    by (rewrite (Hkeep i f Hf Hno); exact Hv).
  f_equal. now apply convert_uint64_id.
Qed.

Lemma read_unassigned_member_witness :
  exists img img',
    construct bpf_le RecoveryMetrics (zeroed 72)
              [1; 2000; 2100; 2050; 50; 25000; 0; 65536; 1200] = Some img
    /\ run bpf_le RecoveryMetrics img
           [Read "path"; Assign "min_rtt" 7; Read "min_rtt";
            Assign "pto_count" 3; Read "path"] = Some img'
    /\ read_member bpf_le RecoveryMetrics img' "path" = Some 1.
Proof.
  eexists. eexists.
  assert (Hc : construct bpf_le RecoveryMetrics (zeroed 72)
                 [1; 2000; 2100; 2050; 50; 25000; 0; 65536; 1200]
               = Some (packed bpf_le (s_members RecoveryMetrics)
                         [1; 2000; 2100; 2050; 50; 25000; 0; 65536; 1200]))
    by reflexivity.
  assert (Hr : run bpf_le RecoveryMetrics
                 (packed bpf_le (s_members RecoveryMetrics)
                    [1; 2000; 2100; 2050; 50; 25000; 0; 65536; 1200])
                 [Read "path"; Assign "min_rtt" 7; Read "min_rtt";
                  Assign "pto_count" 3; Read "path"]
               = Some (packed bpf_le (s_members RecoveryMetrics)
                         [1; 7; 2100; 2050; 50; 25000; 3; 65536; 1200]))
    by reflexivity.
  split; [exact Hc|]. split; [exact Hr|].
  apply (read_unassigned_member bpf_le RecoveryMetrics (zeroed 72)
           [1; 2000; 2100; 2050; 50; 25000; 0; 65536; 1200]
           [Read "path"; Assign "min_rtt" 7; Read "min_rtt";
            Assign "pto_count" 3; Read "path"]
           (packed bpf_le (s_members RecoveryMetrics)
              [1; 2000; 2100; 2050; 50; 25000; 0; 65536; 1200])
           (packed bpf_le (s_members RecoveryMetrics)
              [1; 7; 2100; 2050; 50; 25000; 3; 65536; 1200])
           0 "path" 1 eq_refl);
    [simpl; tauto | exact Hc | exact Hr | reflexivity | reflexivity
    | unfold UINT64_MAX; lia | reflexivity].
Defined.

(** ** Further properties of the event records *)

(** *** Decoding followed by encoding *)

Lemma byte_of_Z_of_byte (b : Byte.byte) : byte_of_Z (Z_of_byte b) = b.
Proof.
  unfold byte_of_Z.
  rewrite Z.mod_small by apply Z_of_byte_range.
  unfold Z_of_byte. rewrite N2Z.id, Byte.of_to_N. reflexivity.
Qed.

Lemma byte_of_Z_mod (z : Z) : byte_of_Z (z mod 256) = byte_of_Z z.
Proof.
  unfold byte_of_Z. now rewrite Z.mod_mod by lia.
Qed.

Lemma encode_decode_le (bs : list Byte.byte) :
  encode_le (length bs) (decode_le bs) = bs.
Proof.
  induction bs as [|b bs IH]; [reflexivity|].
  cbn [length encode_le decode_le].
  pose proof (Z_of_byte_range b) as Hb.
  f_equal.
  - rewrite <- byte_of_Z_mod.
    replace ((Z_of_byte b + 256 * decode_le bs) mod 256) with (Z_of_byte b).
    + apply byte_of_Z_of_byte.
    + rewrite Z.mul_comm, Z.mod_add by lia.
      symmetry. apply Z.mod_small. assumption.
  - replace ((Z_of_byte b + 256 * decode_le bs) / 256) with (decode_le bs);
      [assumption|].
    rewrite Z.add_comm, Z.mul_comm, Z.div_add_l by lia.
    rewrite (Z.div_small (Z_of_byte b)) by assumption. lia.
Qed.

Lemma encode_decode_int (o : byte_order) (bs : list Byte.byte) :
  encode_int o (length bs) (decode_int o bs) = bs.
Proof.
  destruct o; cbn [encode_int decode_int].
  - apply encode_decode_le.
  - rewrite <- (length_rev bs), encode_decode_le. apply rev_involutive.
Qed.

(** Every buffer of 8 bytes for each member is the packed image of in-range
    values: the values its members decode to. *)
Lemma image_is_packed (a : abi) (ms : list member) :
  Forall (fun m => m_type m = uint64_t) ms ->
  forall img : image,
    length img = (8 * length ms)%nat ->
    exists ws,
      length ws = length ms
      /\ Forall (fun v => 0 <= v <= UINT64_MAX) ws
      /\ packed a ms ws = img.
Proof.
  induction 1 as [|m ms Ht _ IH]; intros img Hlen.
  - exists []. destruct img; [|discriminate]. repeat split. constructor.
  - cbn [length] in Hlen.
    destruct (IH (skipn 8 img)) as (ws & Hl & Hr & Hp).
    { rewrite length_skipn. lia. }
    assert (Hhd : length (firstn 8 img) = 8%nat)
      by (rewrite length_firstn; lia).
    set (w := decode_int (order a) (firstn 8 img)).
    assert (Hw : 0 <= w <= UINT64_MAX).
    { pose proof (decode_int_range (order a) (firstn 8 img)) as Hd.
      rewrite Hhd in Hd. change (256 ^ Z.of_nat 8) with (2 ^ 64) in Hd.
      unfold UINT64_MAX. subst w. lia. }
    exists (w :: ws). split; [cbn [length]; lia|].
    split; [constructor; assumption|].
    cbn [packed]. rewrite Ht, Hp, convert_uint64_id by assumption.
    change (size_nat uint64_t) with 8%nat. rewrite <- Hhd at 1.
    subst w. rewrite encode_decode_int. apply firstn_skipn.
Qed.

Lemma event_image_is_packed (a : abi) (d : struct_decl) (img : image) :
  abi_ok a = true ->
  In d event_structs ->
  Z.of_nat (length img) = sizeof_struct a d ->
  exists ws,
    length ws = length (s_members d)
    /\ Forall (fun v => 0 <= v <= UINT64_MAX) ws
    /\ packed a (s_members d) ws = img.
Proof.
  intros Hok Hd Hlen.
  pose proof (members_uint64 d (event_structs_uint64 d Hd)) as Hall.
  rewrite sizeof_struct_uint64 in Hlen by assumption.
  unfold field_count in Hlen.
  apply image_is_packed; [assumption | lia].
Qed.

(** X4.  Every buffer of [sizeof] bytes is a record: each member reads a
    value between 0 and 2^64 - 1, and constructing a record from the values
    read gives back the same bytes, whatever the storage held before. *)
Theorem image_roundtrip (a : abi) (d : struct_decl) (img : image) :
  abi_ok a = true ->
  In d event_structs ->
  Z.of_nat (length img) = sizeof_struct a d ->
  exists vs,
    read_all a d img = map Some vs
    /\ Forall (fun v => 0 <= v <= UINT64_MAX) vs
    /\ forall raw, Z.of_nat (length raw) = sizeof_struct a d ->
                   construct a d raw vs = Some img.
Proof.
  intros Hok Hd Hlen.
  destruct (event_image_is_packed a d img Hok Hd Hlen) as (ws & Hl & Hr & <-).
  exists ws. split; [|split; [assumption|]].
  - rewrite read_all_event by assumption.
    apply map_ext_Forall. eapply Forall_impl; [|exact Hr].
    intros v Hv. cbn beta. f_equal. now apply convert_uint64_id.
  - intros raw Hraw. now apply construct_event.
Qed.

Lemma image_roundtrip_witness :
  exists vs,
    read_all bpf_be RxStreamProgress (filled 8) = map Some vs
    /\ Forall (fun v => 0 <= v <= UINT64_MAX) vs
    /\ forall raw,
         Z.of_nat (length raw) = sizeof_struct bpf_be RxStreamProgress ->
         construct bpf_be RxStreamProgress raw vs = Some (filled 8).
Proof.
  apply image_roundtrip; [reflexivity | simpl; tauto | reflexivity].
Defined.

(** *** The layout across targets *)

Lemma place_abi_independent (a1 a2 : abi) (ms : list member) :
  abi_ok a1 = true ->
  abi_ok a2 = true ->
  Forall (fun m => m_type m = uint64_t) ms ->
  forall k, place a1 (8 * k) ms = place a2 (8 * k) ms.
Proof.
  intros Hok1 Hok2. induction 1 as [|m ms Ht _ IH]; intros k; [reflexivity|].
  rewrite !place_uint64 by assumption. now rewrite IH.
Qed.

(** X1.  The layout of the event records is the same on every target:
    offsets and size do not depend on the alignment of 64-bit integers
    (8 on x86-64 and eBPF, 4 on i386), and a record constructed on one
    target reads back its values on any other target of the same byte
    order. *)
Theorem layout_abi_independent (a1 a2 : abi) (d : struct_decl) :
  abi_ok a1 = true ->
  abi_ok a2 = true ->
  In d event_structs ->
  layout a1 d = layout a2 d
  /\ sizeof_struct a1 d = sizeof_struct a2 d
  /\ (order a1 = order a2 ->
      forall (raw : image) (vs : list Z) (img : image),
        construct a1 d raw vs = Some img ->
        read_all a2 d img = map (fun v => Some (convert uint64_t v)) vs).
Proof.
  intros Hok1 Hok2 Hd.
  pose proof (members_uint64 d (event_structs_uint64 d Hd)) as Hall.
  split; [|split].
  - unfold layout. change 0 with (8 * 0).
    now apply place_abi_independent.
  - now rewrite !sizeof_struct_uint64.
  - intros Ho raw vs img Hc.
    destruct (construct_inv a1 d raw vs img Hc) as [Hraw Hlen].
    rewrite (construct_event a1 Hok1 d Hd raw vs Hraw Hlen) in Hc.
    injection Hc as <-.
    rewrite (packed_order a1 a2 _ _ Ho).
    now apply read_all_event.
Qed.

Lemma layout_abi_independent_witness :
  layout i386 RecoveryMetrics = layout bpf_le RecoveryMetrics
  /\ sizeof_struct i386 RecoveryMetrics = sizeof_struct bpf_le RecoveryMetrics
  /\ (order i386 = order bpf_le ->
      forall (raw : image) (vs : list Z) (img : image),
        construct i386 RecoveryMetrics raw vs = Some img ->
        read_all bpf_le RecoveryMetrics img
        = map (fun v => Some (convert uint64_t v)) vs).
Proof.
  apply layout_abi_independent; [reflexivity | reflexivity | simpl; tauto].
Defined.

(** *** Members that are not declared *)

Lemma find_member_None (a : abi) (f : string) (ms : list member) (off : Z) :
  find_member f (place a off ms) = None <-> ~ In f (map m_name ms).
Proof.
  revert off. induction ms as [|m ms IH]; intros off.
  - cbn. tauto.
  - cbn [place find_member map In].
    destruct (String.eqb f (m_name m)) eqn:E.
    + apply String.eqb_eq in E. split; [discriminate|].
      intros H. exfalso. apply H. left. now symmetry.
    + apply String.eqb_neq in E. rewrite IH. split.
      * intros H [Heq | Hin]; [apply E; now symmetry | now apply H].
      * intros H Hin. apply H. now right.
Qed.

(** X6.  A record has the members its declaration names and no others:
    for a record in storage of its size, every declared member can be read
    and assigned to, and a name that is not declared has no offset, cannot
    be read and cannot be assigned to. *)
Theorem member_access_defined (a : abi) (d : struct_decl) (img : image)
        (f : string) :
  abi_ok a = true ->
  In d event_structs ->
  Z.of_nat (length img) = sizeof_struct a d ->
  (In f (member_names d) ->
   (exists o, offsetof a d f = Some o)
   /\ (exists v, read_member a d img f = Some v)
   /\ (forall w, exists img', assign a d img f w = Some img'))
  /\ (~ In f (member_names d) ->
      offsetof a d f = None
      /\ read_member a d img f = None
      /\ (forall w, assign a d img f w = None)).
Proof.
  intros Hok Hd Hlen. split.
  - intros Hf.
    pose proof (event_structs_uint64 d Hd) as Hrec.
    destruct (event_image_is_packed a d img Hok Hd Hlen)
      as (ws & Hl & _ & <-).
    apply In_nth_error in Hf as [i Hi].
    destruct (nth_error_names d i f Hi) as (m & Hm & <-).
    split; [|split].
    + unfold offsetof, layout. change 0 with (8 * 0).
      rewrite (find_member_place a Hok _ 0 i m (members_uint64 d Hrec)
                 (proj2 Hrec) Hm).
      cbn [option_map]. eauto.
    + assert (Hlt : (i < length ws)%nat).
      { rewrite Hl. apply nth_error_Some. congruence. }
      destruct (nth_error ws i) as [v|] eqn:Hv;
        [|apply nth_error_None in Hv; lia].
      rewrite (read_member_packed a Hok d ws i m v Hrec Hl Hm Hv). eauto.
    + intros w. rewrite (assign_packed a Hok d ws i m w Hrec Hl Hm). eauto.
  - intros Hf. unfold member_names in Hf.
    apply (find_member_None a f (s_members d) 0) in Hf.
    unfold offsetof, read_member, assign, layout. rewrite Hf.
    repeat split.
Qed.

Lemma member_access_defined_witness :
  (In "len" (member_names EndpointDatagramReceived) ->
   (exists o, offsetof bpf_le EndpointDatagramReceived "len" = Some o)
   /\ (exists v,
          read_member bpf_le EndpointDatagramReceived (zeroed 8) "len"
          = Some v)
   /\ (forall w, exists img',
          assign bpf_le EndpointDatagramReceived (zeroed 8) "len" w
          = Some img'))
  /\ (~ In "len" (member_names EndpointDatagramReceived) ->
      offsetof bpf_le EndpointDatagramReceived "len" = None
      /\ read_member bpf_le EndpointDatagramReceived (zeroed 8) "len" = None
      /\ (forall w,
             assign bpf_le EndpointDatagramReceived (zeroed 8) "len" w
             = None)).
Proof.
  apply member_access_defined; [reflexivity | simpl; tauto | reflexivity].
Defined.

(** *** Alignment *)

(** X8.  Every member lies within its record and is aligned: in an array
    of records, where element k starts at k * sizeof, the address of every
    member of every element is a multiple of the alignment of [uint64_t]. *)
Theorem members_aligned (a : abi) (d : struct_decl) (f : string) (o k : Z) :
  abi_ok a = true ->
  In d event_structs ->
  offsetof a d f = Some o ->
  0 <= o
  /\ o + sizeof uint64_t <= sizeof_struct a d
  /\ (k * sizeof_struct a d + o) mod alignof a uint64_t = 0.
Proof.
  intros Hok Hd Ho.
  pose proof (members_uint64 d (event_structs_uint64 d Hd)) as Hall.
  unfold offsetof, layout in Ho. change 0 with (8 * 0) in Ho.
  destruct (find_member f (place a (8 * 0) (s_members d)))
    as [[m off]|] eqn:Hfind; [|discriminate].
  cbn [option_map snd] in Ho.
  assert (Heq : off = o) by congruence. subst off.
  destruct (find_member_inv a Hok _ _ _ _ _ Hall Hfind) as (i & Hi & _ & ->).
  assert (Hlt : (i < length (s_members d))%nat)
    by (apply nth_error_Some; congruence).
  rewrite sizeof_struct_uint64 by assumption. unfold field_count.
  change (sizeof uint64_t) with 8.
  split; [lia|]. split; [lia|].
  destruct (align64_ok a Hok) as [Hpos Hmod].
  apply Z.mod_divide in Hmod; [|lia]. destruct Hmod as [q Hq].
  set (n := Z.of_nat (length (s_members d))).
  replace (k * (8 * n) + 8 * (0 + Z.of_nat i))
    with ((k * n + Z.of_nat i) * 8) by lia.
  rewrite Hq.
  replace ((k * n + Z.of_nat i) * (q * alignof a uint64_t))
    with ((k * n + Z.of_nat i) * q * alignof a uint64_t) by lia.
  apply Z.mod_mul. lia.
Qed.

Lemma members_aligned_witness :
  0 <= 64
  /\ 64 + sizeof uint64_t <= sizeof_struct i386 RecoveryMetrics
  /\ (3 * sizeof_struct i386 RecoveryMetrics + 64) mod alignof i386 uint64_t
     = 0.
Proof.
  apply (members_aligned i386 RecoveryMetrics "bytes_in_flight" 64 3);
    [reflexivity | simpl; tauto | reflexivity].
Defined.

(** *** Assignment *)

Lemma update_update_same (i : nat) (v w : Z) (ws : list Z) :
  (i < length ws)%nat -> update i w (update i v ws) = update i w ws.
Proof.
  intros Hi. apply nth_error_ext. intros n.
  destruct (Nat.eq_dec n i) as [-> | Hn].
  - rewrite !nth_error_update_same; [reflexivity | assumption |].
    now rewrite length_update.
  - rewrite !nth_error_update_other; try assumption; [reflexivity|].
    now rewrite length_update.
Qed.

Lemma update_comm (i j : nat) (v w : Z) (ws : list Z) :
  (i < length ws)%nat -> (j < length ws)%nat -> i <> j ->
  update i v (update j w ws) = update j w (update i v ws).
Proof.
  intros Hi Hj Hij. apply nth_error_ext. intros n.
  assert (Hli : length (update i v ws) = length ws) by now apply length_update.
  assert (Hlj : length (update j w ws) = length ws) by now apply length_update.
  destruct (Nat.eq_dec n i) as [-> | Hni].
  - rewrite nth_error_update_same by (rewrite Hlj; assumption).
    rewrite nth_error_update_other by (rewrite ?Hli; assumption).
    now rewrite nth_error_update_same.
  - rewrite nth_error_update_other by (rewrite ?Hlj; assumption).
    destruct (Nat.eq_dec n j) as [-> | Hnj].
    + rewrite !nth_error_update_same; [reflexivity | | assumption].
      now rewrite Hli.
    + rewrite !nth_error_update_other; try assumption; [reflexivity|].
      now rewrite Hli.
Qed.

Lemma member_index (d : struct_decl) (f : string) :
  In f (member_names d) ->
  exists i m, nth_error (s_members d) i = Some m /\ m_name m = f
              /\ (i < length (s_members d))%nat.
Proof.
  intros Hf. apply In_nth_error in Hf as [i Hi].
  destruct (nth_error_names d i f Hi) as (m & Hm & Hn).
  exists i, m. repeat split; try assumption.
  apply nth_error_Some. congruence.
Qed.

Lemma member_index_inj (d : struct_decl) (i j : nat) (m m' : member) :
  uint64_record d ->
  nth_error (s_members d) i = Some m ->
  nth_error (s_members d) j = Some m' ->
  m_name m <> m_name m' -> i <> j.
Proof.
  intros _ Hi Hj Hne ->. apply Hne. congruence.
Qed.

(** X2.  Assignment to a member of a record in storage of its size always
    succeeds, keeps the size of the record, makes that member read the
    assigned value reduced modulo 2^64, and leaves what every other member
    reads unchanged. *)
Theorem assign_then_read (a : abi) (d : struct_decl) (img : image)
        (f : string) (w : Z) :
  abi_ok a = true ->
  In d event_structs ->
  Z.of_nat (length img) = sizeof_struct a d ->
  In f (member_names d) ->
  exists img',
    assign a d img f w = Some img'
    /\ length img' = length img
    /\ read_member a d img' f = Some (w mod 2 ^ 64)
    /\ forall g, g <> f -> read_member a d img' g = read_member a d img g.
Proof.
  intros Hok Hd Hlen Hf.
  pose proof (event_structs_uint64 d Hd) as Hrec.
  pose proof (members_uint64 d Hrec) as Hall.
  destruct (event_image_is_packed a d img Hok Hd Hlen) as (ws & Hl & _ & <-).
  destruct (member_index d f Hf) as (i & m & Hm & <- & Hi).
  assert (Hiw : (i < length ws)%nat) by (rewrite Hl; assumption).
  assert (Hl' : length (update i w ws) = length (s_members d))
    by (rewrite length_update; assumption).
  exists (packed a (s_members d) (update i w ws)).
  split; [now apply assign_packed|].
  split; [now rewrite !packed_length|].
  split.
  - rewrite (read_member_packed a Hok d _ i m w Hrec Hl' Hm)
      by now apply nth_error_update_same.
    reflexivity.
  - intros g Hg.
    destruct (in_dec string_dec g (member_names d)) as [Hin | Hnot].
    + destruct (member_index d g Hin) as (j & m' & Hm' & <- & Hj).
      assert (Hji : j <> i)
        by (eapply member_index_inj; eassumption).
      destruct (nth_error ws j) as [v|] eqn:Hv;
        [|apply nth_error_None in Hv; lia].
      rewrite (read_member_packed a Hok d _ j m' v Hrec Hl' Hm')
        by (rewrite nth_error_update_other; assumption).
      now rewrite (read_member_packed a Hok d _ j m' v Hrec Hl Hm' Hv).
    + unfold member_names in Hnot.
      apply (find_member_None a g (s_members d) 0) in Hnot.
      unfold read_member, layout. now rewrite Hnot.
Qed.

Lemma assign_then_read_witness :
  exists img',
    assign bpf_le RecoveryMetrics (zeroed 72) "pto_count" (-1) = Some img'
    /\ length img' = length (zeroed 72)
    /\ read_member bpf_le RecoveryMetrics img' "pto_count"
       = Some ((-1) mod 2 ^ 64)
    /\ forall g, g <> "pto_count" ->
                 read_member bpf_le RecoveryMetrics img' g
                 = read_member bpf_le RecoveryMetrics (zeroed 72) g.
Proof.
  apply assign_then_read;
    [reflexivity | simpl; tauto | reflexivity | simpl; tauto].
Defined.

(** X9.  Assignments compose as on a tuple of independent cells: of two
    assignments to the same member the second one wins, and assignments to
    two different members can be exchanged; in both cases the program
    runs to a record. *)
Theorem assign_compose (a : abi) (d : struct_decl) (img : image)
        (f g : string) (v w : Z) :
  abi_ok a = true ->
  In d event_structs ->
  Z.of_nat (length img) = sizeof_struct a d ->
  In f (member_names d) ->
  In g (member_names d) ->
  run a d img [Assign f v; Assign f w] = run a d img [Assign f w]
  /\ (f <> g ->
      run a d img [Assign f v; Assign g w]
      = run a d img [Assign g w; Assign f v])
  /\ exists img', run a d img [Assign f v; Assign g w] = Some img'.
Proof.
  intros Hok Hd Hlen Hf Hg.
  pose proof (event_structs_uint64 d Hd) as Hrec.
  destruct (event_image_is_packed a d img Hok Hd Hlen) as (ws & Hl & _ & <-).
  destruct (member_index d f Hf) as (i & m & Hm & <- & Hi).
  destruct (member_index d g Hg) as (j & m' & Hm' & <- & Hj).
  assert (Hiw : (i < length ws)%nat) by (rewrite Hl; assumption).
  assert (Hjw : (j < length ws)%nat) by (rewrite Hl; assumption).
  assert (Hupd : forall n u, (n < length ws)%nat ->
                   length (update n u ws) = length (s_members d))
    by (intros; rewrite length_update; assumption).
  cbn [run step].
  rewrite !(assign_packed a Hok d ws i m _ Hrec Hl Hm).
  rewrite (assign_packed a Hok d ws j m' _ Hrec Hl Hm').
  rewrite (assign_packed a Hok d _ i m w Hrec (Hupd i v Hiw) Hm).
  rewrite (assign_packed a Hok d _ j m' w Hrec (Hupd i v Hiw) Hm').
  rewrite (assign_packed a Hok d _ i m v Hrec (Hupd j w Hjw) Hm).
  split; [now rewrite update_update_same|].
  split; [|eauto].
  intros Hne. rewrite (update_comm j i w v ws); try assumption; [reflexivity|].
  intros ->. apply Hne. congruence.
Qed.

Lemma assign_compose_witness :
  run bpf_le RecoveryMetrics (zeroed 72)
      [Assign "path" 1; Assign "path" 2]
  = run bpf_le RecoveryMetrics (zeroed 72) [Assign "path" 2]
  /\ ("path" <> "min_rtt" ->
      run bpf_le RecoveryMetrics (zeroed 72)
          [Assign "path" 1; Assign "min_rtt" 2]
      = run bpf_le RecoveryMetrics (zeroed 72)
            [Assign "min_rtt" 2; Assign "path" 1])
  /\ exists img',
       run bpf_le RecoveryMetrics (zeroed 72)
           [Assign "path" 1; Assign "min_rtt" 2] = Some img'.
Proof.
  destruct (assign_compose bpf_le RecoveryMetrics (zeroed 72)
              "path" "min_rtt" 1 2)
    as (H1 & H2 & H3);
    [reflexivity | simpl; tauto | reflexivity | simpl; tauto | simpl; tauto |].
  split; [exact H1 | split; [exact H2 | exact H3]].
Defined.

(** *** Values outside the range, and records with the same bytes *)

Lemma packed_convert (a : abi) (ms : list member) :
  Forall (fun m => m_type m = uint64_t) ms ->
  forall vs, packed a ms vs = packed a ms (map (convert uint64_t) vs).
Proof.
  induction 1 as [|m ms Ht _ IH]; intros [|v vs]; try reflexivity.
  cbn [packed map]. now rewrite Ht, convert_uint64_idem, <- IH.
Qed.

(** X3.  Initialisers are taken modulo 2^64: two tuples construct the same
    record exactly when they are congruent modulo 2^64 member by member, so
    tuples of unsigned 64-bit values construct the same record only when
    they are equal. *)
Theorem construct_congruent (a : abi) (d : struct_decl) (raw1 raw2 : image)
        (vs1 vs2 : list Z) :
  abi_ok a = true ->
  In d event_structs ->
  Z.of_nat (length raw1) = sizeof_struct a d ->
  Z.of_nat (length raw2) = sizeof_struct a d ->
  length vs1 = length (s_members d) ->
  length vs2 = length (s_members d) ->
  (construct a d raw1 vs1 = construct a d raw2 vs2
   <-> map (fun v => v mod 2 ^ 64) vs1 = map (fun v => v mod 2 ^ 64) vs2)
  /\ (Forall (fun v => 0 <= v <= UINT64_MAX) vs1 ->
      Forall (fun v => 0 <= v <= UINT64_MAX) vs2 ->
      construct a d raw1 vs1 = construct a d raw2 vs2 -> vs1 = vs2).
Proof.
  intros Hok Hd Hraw1 Hraw2 Hl1 Hl2.
  pose proof (members_uint64 d (event_structs_uint64 d Hd)) as Hall.
  rewrite (construct_event a Hok d Hd raw1 vs1 Hraw1 Hl1).
  rewrite (construct_event a Hok d Hd raw2 vs2 Hraw2 Hl2).
  assert (Hiff : Some (packed a (s_members d) vs1)
                 = Some (packed a (s_members d) vs2)
                 <-> map (fun v => v mod 2 ^ 64) vs1
                     = map (fun v => v mod 2 ^ 64) vs2).
  { split.
    - intros Heq. injection Heq as Heq.
      pose proof (read_all_event a Hok d Hd vs1 Hl1) as H1.
      pose proof (read_all_event a Hok d Hd vs2 Hl2) as H2.
      rewrite Heq, H2 in H1.
      apply (f_equal (map (fun o : option Z =>
                             match o with Some x => x | None => 0 end)))
        in H1.
      rewrite !map_map in H1. symmetry. exact H1.
    - intros Heq.
      rewrite (packed_convert a _ Hall vs1), (packed_convert a _ Hall vs2).
      change (convert uint64_t) with (fun v => v mod 2 ^ 64).
      now rewrite Heq. }
  split; [exact Hiff|].
  intros Hr1 Hr2 Heq. apply Hiff in Heq.
  assert (Hid : forall vs, Forall (fun v => 0 <= v <= UINT64_MAX) vs ->
                           map (fun v => v mod 2 ^ 64) vs = vs).
  { intros vs Hr. rewrite <- (map_id vs) at 2.
    apply map_ext_Forall. eapply Forall_impl; [|exact Hr].
    intros v Hv. cbn beta. apply Z.mod_small.
    unfold UINT64_MAX in Hv. lia. }
  now rewrite <- (Hid vs1 Hr1), <- (Hid vs2 Hr2).
Qed.

Lemma construct_congruent_witness :
  (construct bpf_le RxStreamProgress (zeroed 8) [18446744073709551616]
   = construct bpf_le RxStreamProgress (filled 8) [0]
   <-> map (fun v => v mod 2 ^ 64) [18446744073709551616]
       = map (fun v => v mod 2 ^ 64) [0])
  /\ (Forall (fun v => 0 <= v <= UINT64_MAX) [18446744073709551616] ->
      Forall (fun v => 0 <= v <= UINT64_MAX) [0] ->
      construct bpf_le RxStreamProgress (zeroed 8) [18446744073709551616]
      = construct bpf_le RxStreamProgress (filled 8) [0] ->
      [18446744073709551616] = [0]).
Proof.
  apply construct_congruent;
    [reflexivity | simpl; tauto | reflexivity | reflexivity | reflexivity
    | reflexivity].
Defined.

(** *** Records without a tag *)

(** X7.  The three records with a single member have the same
    representation: the bytes of a record constructed as one of them are
    those of the record of any other of them constructed from the same
    value, and read back that value as the other kind. *)
Theorem single_member_records_interchangeable (a : abi)
        (d1 d2 : struct_decl) (raw : image) (v : Z) :
  abi_ok a = true ->
  In d1 [RxStreamProgress; TxStreamProgress; EndpointDatagramReceived] ->
  In d2 [RxStreamProgress; TxStreamProgress; EndpointDatagramReceived] ->
  Z.of_nat (length raw) = 8 ->
  exists img,
    construct a d1 raw [v] = Some img
    /\ construct a d2 raw [v] = Some img
    /\ read_all a d1 img = [Some (v mod 2 ^ 64)]
    /\ read_all a d2 img = [Some (v mod 2 ^ 64)].
Proof.
  intros Hok H1 H2 Hraw.
  assert (Hsingle : forall e,
             In e [RxStreamProgress; TxStreamProgress;
                   EndpointDatagramReceived] ->
             In e event_structs
             /\ length (s_members e) = 1%nat
             /\ packed a (s_members e) [v]
                = packed a (s_members RxStreamProgress) [v]).
  { intros e He. cbn [In] in He.
    destruct He as [<- | [<- | [<- | []]]];
      (split; [cbn [event_structs In]; tauto | split; reflexivity]). }
  destruct (Hsingle d1 H1) as (He1 & Hn1 & Hp1).
  destruct (Hsingle d2 H2) as (He2 & Hn2 & Hp2).
  assert (Hsz : forall e, In e event_structs -> length (s_members e) = 1%nat ->
                          Z.of_nat (length raw) = sizeof_struct a e).
  { intros e He Hn. rewrite sizeof_struct_uint64
      by (assumption || apply members_uint64, event_structs_uint64, He).
    unfold field_count. rewrite Hn. exact Hraw. }
  exists (packed a (s_members RxStreamProgress) [v]).
  split; [rewrite <- Hp1; apply construct_event; auto|].
  split; [rewrite <- Hp2; apply construct_event; auto|].
  split.
  - rewrite <- Hp1. now rewrite read_all_event by auto.
  - rewrite <- Hp2. now rewrite read_all_event by auto.
Qed.

Lemma single_member_records_interchangeable_witness :
  exists img,
    construct bpf_le RxStreamProgress (zeroed 8) [1500] = Some img
    /\ construct bpf_le EndpointDatagramReceived (zeroed 8) [1500] = Some img
    /\ read_all bpf_le RxStreamProgress img = [Some (1500 mod 2 ^ 64)]
    /\ read_all bpf_le EndpointDatagramReceived img
       = [Some (1500 mod 2 ^ 64)].
Proof.
  apply single_member_records_interchangeable;
    [reflexivity | simpl; tauto | simpl; tauto | reflexivity].
Defined.

(** *** Reading a prefix of a record *)

Lemma load_short (img : image) (off : Z) (n : nat) :
  Z.of_nat (length img) < off + Z.of_nat n -> load img off n = None.
Proof.
  intros H. unfold load, in_bounds.
  replace (off + Z.of_nat n <=? Z.of_nat (length img)) with false
    by (symmetry; apply Z.leb_gt; assumption).
  now rewrite andb_false_r.
Qed.

(** X5.  From the first n bytes of a record, the members that lie wholly
    within those bytes read the values of the record, and every other
    member cannot be read: member i (counting from 0) can be read exactly
    when n is at least 8*(i+1). *)
Theorem read_truncated (a : abi) (d : struct_decl) (raw : image)
        (vs : list Z) (img : image) (n i : nat) (f : string) (v : Z) :
  abi_ok a = true ->
  In d event_structs ->
  construct a d raw vs = Some img ->
  nth_error (member_names d) i = Some f ->
  nth_error vs i = Some v ->
  read_member a d (firstn n img) f
  = if (8 * (i + 1) <=? n)%nat then Some (v mod 2 ^ 64) else None.
Proof.
  intros Hok Hd Hc Hf Hv.
  pose proof (event_structs_uint64 d Hd) as Hrec.
  pose proof (members_uint64 d Hrec) as Hall.
  destruct (construct_inv a d raw vs img Hc) as [Hraw Hlen].
  rewrite (construct_event a Hok d Hd raw vs Hraw Hlen) in Hc.
  injection Hc as <-.
  destruct (nth_error_names d i f Hf) as (m & Hm & <-).
  assert (Ht : m_type m = uint64_t).
  { rewrite Forall_forall in Hall. apply Hall.
    eapply nth_error_In; eassumption. }
  unfold read_member, layout. change 0 with (8 * 0).
  rewrite (find_member_place a Hok _ 0 i m Hall (proj2 Hrec) Hm).
  destruct (nth_error_split _ _ Hm) as (ms1 & ms2 & Ems & Hl1).
  destruct (nth_error_split _ _ Hv) as (vs1 & vs2 & Evs & Hl2).
  rewrite Ems, Evs in *.
  rewrite packed_app by lia. cbn [packed]. rewrite Ht.
  apply Forall_app in Hall as [Hall1 _].
  set (p := packed a ms1 vs1).
  set (enc := encode_int (order a) (size_nat uint64_t) (convert uint64_t v)).
  set (r := packed a ms2 vs2).
  assert (Hp : length p = (8 * i)%nat)
    by (subst p; rewrite packed_length by (assumption || lia); lia).
  assert (Henc : length enc = 8%nat) by apply length_encode_int.
  unfold load_int. change (size_nat uint64_t) with 8%nat.
  destruct (8 * (i + 1) <=? n)%nat eqn:E.
  - apply Nat.leb_le in E.
    rewrite firstn_app, firstn_all2 by lia.
    rewrite firstn_app.
    replace (firstn (n - length p) enc) with enc
      by (symmetry; apply firstn_all2; lia).
    replace (8 * (0 + Z.of_nat i)) with (Z.of_nat (length p)) by lia.
    pose proof (load_middle p enc (firstn (n - length p - length enc) r))
      as Hload.
    rewrite Henc in Hload at 2. rewrite Hload.
    cbn [option_map]. f_equal.
    subst enc. apply decode_encode_uint64.
  - apply Nat.leb_gt in E.
    rewrite load_short; [reflexivity|].
    rewrite length_firstn. lia.
Qed.

Lemma read_truncated_witness :
  read_member bpf_le RecoveryMetrics
    (firstn 16 (packed bpf_le (s_members RecoveryMetrics)
                  [1; 2000; 2100; 2050; 50; 25000; 0; 65536; 1200]))
    "min_rtt"
  = (if (8 * (1 + 1) <=? 16)%nat then Some (2000 mod 2 ^ 64) else None)
  /\ read_member bpf_le RecoveryMetrics
       (firstn 16 (packed bpf_le (s_members RecoveryMetrics)
                     [1; 2000; 2100; 2050; 50; 25000; 0; 65536; 1200]))
       "smoothed_rtt"
     = (if (8 * (2 + 1) <=? 16)%nat then Some (2100 mod 2 ^ 64) else None).
Proof.
  split.
  - apply (read_truncated bpf_le RecoveryMetrics (zeroed 72)
             [1; 2000; 2100; 2050; 50; 25000; 0; 65536; 1200]);
      [reflexivity | simpl; tauto | reflexivity | reflexivity | reflexivity].
  - apply (read_truncated bpf_le RecoveryMetrics (zeroed 72)
             [1; 2000; 2100; 2050; 50; 25000; 0; 65536; 1200]);
      [reflexivity | simpl; tauto | reflexivity | reflexivity | reflexivity].
Defined.

(** *** The bytes of a member *)

Lemma nth_error_encode_le (n j : nat) (v : Z) :
  (j < n)%nat ->
  nth_error (encode_le n v) j = Some (byte_of_Z (v / 256 ^ Z.of_nat j)).
Proof.
  revert j v. induction n as [|n IH]; intros j v Hj; [lia|].
  destruct j as [|j]; cbn [encode_le nth_error].
  - now rewrite Z.pow_0_r, Z.div_1_r.
  - rewrite IH by lia. do 2 f_equal.
    rewrite Nat2Z.inj_succ, Z.pow_succ_r by lia.
    rewrite Z.div_div; [reflexivity | lia |].
    apply Z.pow_pos_nonneg; lia.
Qed.

(** The position, counted from the least significant byte, of the byte
    stored at index [j] of an 8-byte integer. *)
Lemma nth_error_encode_int (o : byte_order) (j : nat) (v : Z) :
  (j < 8)%nat ->
  nth_error (encode_int o 8 v) j
  = Some (byte_of_Z
            (v / 256 ^ Z.of_nat (match o with
                                 | LittleEndian => j
                                 | BigEndian => 7 - j
                                 end))).
Proof.
  intros Hj. destruct o; cbn [encode_int].
  - now apply nth_error_encode_le.
  - rewrite nth_error_rev, length_encode_le.
    replace (j <? 8)%nat with true by (symmetry; apply Nat.ltb_lt; lia).
    rewrite nth_error_encode_le by lia.
    do 4 f_equal; lia.
Qed.

(** X10.  Byte j (0 to 7) of member i of a constructed record, that is the
    byte at index 8*i + j of the record, holds the bits 8*k to 8*k + 7 of the
    member's value, where k = j on a little-endian target and k = 7 - j on
    a big-endian one. *)
Theorem member_bytes (a : abi) (d : struct_decl) (raw : image)
        (vs : list Z) (img : image) (i j : nat) (v : Z) :
  abi_ok a = true ->
  In d event_structs ->
  construct a d raw vs = Some img ->
  nth_error vs i = Some v ->
  0 <= v <= UINT64_MAX ->
  (j < 8)%nat ->
  option_map Z_of_byte (nth_error img (8 * i + j))
  = Some ((v / 2 ^ (8 * Z.of_nat (match order a with
                                  | LittleEndian => j
                                  | BigEndian => 7 - j
                                  end))) mod 256).
Proof.
  intros Hok Hd Hc Hv Hrange Hj.
  pose proof (members_uint64 d (event_structs_uint64 d Hd)) as Hall.
  destruct (construct_inv a d raw vs img Hc) as [Hraw Hlen].
  rewrite (construct_event a Hok d Hd raw vs Hraw Hlen) in Hc.
  injection Hc as <-.
  assert (Hi : (i < length (s_members d))%nat).
  { rewrite <- Hlen. apply nth_error_Some. congruence. }
  destruct (nth_error (s_members d) i) as [m|] eqn:Hm;
    [|apply nth_error_None in Hm; lia].
  assert (Ht : m_type m = uint64_t).
  { rewrite Forall_forall in Hall. apply Hall.
    eapply nth_error_In; eassumption. }
  destruct (nth_error_split _ _ Hm) as (ms1 & ms2 & Ems & Hl1).
  destruct (nth_error_split _ _ Hv) as (vs1 & vs2 & Evs & Hl2).
  rewrite Ems, Evs in *.
  rewrite packed_app by lia. cbn [packed]. rewrite Ht.
  apply Forall_app in Hall as [Hall1 _].
  assert (Hp : length (packed a ms1 vs1) = (8 * i)%nat)
    by (rewrite packed_length by (assumption || lia); lia).
  rewrite nth_error_app2 by lia.
  replace (8 * i + j - length (packed a ms1 vs1))%nat with j by lia.
  rewrite nth_error_app1 by (rewrite length_encode_int; exact Hj).
  change (size_nat uint64_t) with 8%nat.
  rewrite nth_error_encode_int by assumption.
  cbn [option_map]. rewrite Z_of_byte_of_Z, convert_uint64_id by assumption.
  do 3 f_equal.
  rewrite Z.pow_mul_r by lia. reflexivity.
Qed.

Lemma member_bytes_witness :
  option_map Z_of_byte
    (nth_error (packed bpf_be (s_members RecoveryMetrics)
                  [1; 2000; 2100; 2050; 50; 25000; 0; 65536; 1200])
               (8 * 1 + 6))
  = Some ((2000 / 2 ^ (8 * Z.of_nat (match order bpf_be with
                                     | LittleEndian => 6
                                     | BigEndian => 7 - 6
                                     end))) mod 256).
Proof.
  apply (member_bytes bpf_be RecoveryMetrics (zeroed 72)
           [1; 2000; 2100; 2050; 50; 25000; 0; 65536; 1200]);
    [reflexivity | simpl; tauto | reflexivity | reflexivity
    | unfold UINT64_MAX; lia | lia].
Defined.

(** *** Zeroed storage *)

Lemma packed_zeros (a : abi) (ms : list member) :
  Forall (fun m => m_type m = uint64_t) ms ->
  packed a ms (repeat 0 (length ms)) = repeat Byte.x00 (8 * length ms).
Proof.
  induction 1 as [|m ms Ht _ IH]; [reflexivity|].
  cbn [length repeat packed]. rewrite Ht, IH.
  replace (8 * S (length ms))%nat with (8 + 8 * length ms)%nat by lia.
  rewrite repeat_app. f_equal.
  destruct (order a); reflexivity.
Qed.

(** X11.  Storage of the size of a record filled with zero bytes is the
    record all of whose members are 0: every member reads 0, and it is the
    record that construction from zeros yields. *)
Theorem zeroed_record (a : abi) (d : struct_decl) (raw : image) :
  abi_ok a = true ->
  In d event_structs ->
  Z.of_nat (length raw) = sizeof_struct a d ->
  read_all a d (zeroed (sizeof_struct a d))
  = map (fun _ => Some 0) (s_members d)
  /\ construct a d raw (repeat 0 (length (s_members d)))
     = Some (zeroed (sizeof_struct a d)).
Proof.
  intros Hok Hd Hraw.
  pose proof (members_uint64 d (event_structs_uint64 d Hd)) as Hall.
  assert (Hz : zeroed (sizeof_struct a d)
               = packed a (s_members d) (repeat 0 (length (s_members d)))).
  { rewrite packed_zeros by assumption. unfold zeroed.
    rewrite sizeof_struct_uint64 by assumption. unfold field_count.
    f_equal. lia. }
  rewrite Hz. split.
  - rewrite read_all_event by (assumption || apply repeat_length).
    clear Hz Hraw Hall. induction (s_members d) as [|m ms IH]; [reflexivity|].
    cbn [length repeat map]. now rewrite IH.
  - apply construct_event; try assumption. apply repeat_length.
Qed.

Lemma zeroed_record_witness :
  read_all i386 RecoveryMetrics (zeroed (sizeof_struct i386 RecoveryMetrics))
  = map (fun _ => Some 0) (s_members RecoveryMetrics)
  /\ construct i386 RecoveryMetrics (filled 72)
               (repeat 0 (length (s_members RecoveryMetrics)))
     = Some (zeroed (sizeof_struct i386 RecoveryMetrics)).
Proof.
  apply zeroed_record; [reflexivity | simpl; tauto | reflexivity].
Defined.
